(** * A Moebius strip model: parametric grid, surface points, area and edge length

    Shallow embedding of [src/mobius_strip.py] (class [MobiusStrip]) and of
    the NumPy / SciPy array operations it calls.

    Numbers.  Python floats are idealised as the real numbers of the
    Standard Library ([R], with [PI], [sin], [cos], [sqrt]); every statement
    below is a statement of exact real arithmetic.  Python integers are [Z].

    Arrays.  A 1-D [ndarray] is a [list R]; a 2-D [ndarray] is a list of
    rows, [list (list R)], so that [A[i, j]] is [get2 A i j].

    Errors.  Python exceptions are the type [exn]; a call that may raise
    returns [result A = exn + A].  Methods of the class run in a small
    state-and-error monad over the instance, so that what a method does to
    [self] is part of its result. *)

From Stdlib Require Import Reals Lra Lia List ZArith Bool.
Import ListNotations.
Local Open Scope R_scope.

(** ** Exceptions *)

Inductive exn : Set :=
| ValueError
| IndexError.

Definition result (A : Type) : Type := (exn + A)%type.

Definition ok {A} (a : A) : result A := inr a.
Definition throw {A} (e : exn) : result A := inl e.

Definition rbind {A B} (c : result A) (k : A -> result B) : result B :=
  match c with
  | inl e => inl e
  | inr a => k a
  end.

Declare Scope result_scope.
Delimit Scope result_scope with result.
Notation "'let?' x ':=' c 'in' k" := (rbind c (fun x => k))
  (at level 10, x name, c at level 100, k at level 200) : result_scope.

(** ** Array primitives *)

Fixpoint zipWith {A B C} (f : A -> B -> C) (l : list A) (l' : list B) : list C :=
  match l, l' with
  | a :: t, b :: t' => f a b :: zipWith f t t'
  | _, _ => []
  end.

Definition map2d (f : R -> R) (A : list (list R)) : list (list R) :=
  map (map f) A.

Definition zip2d (f : R -> R -> R) (A B : list (list R)) : list (list R) :=
  zipWith (zipWith f) A B.

Definition get2 (A : list (list R)) (i j : nat) : R :=
  nth j (nth i A []) 0.

Definition column (j : nat) (A : list (list R)) : list R :=
  map (fun row => nth j row 0) A.

Definition ncols (A : list (list R)) : nat := length (hd [] A).

(** Python indexing [a[k]] with a possibly negative [k]. *)
Definition py_index (len : nat) (k : Z) : option nat :=
  let k' := if (k <? 0)%Z then (k + Z.of_nat len)%Z else k in
  if ((0 <=? k') && (k' <? Z.of_nat len))%Z then Some (Z.to_nat k') else None.

Definition getitem {A} (d : A) (l : list A) (k : Z) : result A :=
  match py_index (length l) k with
  | Some i => ok (nth i l d)
  | None => throw IndexError
  end.

(** ** NumPy *)

Module np.

(** [np.linspace(start, stop, num)] with [endpoint=True]: samples
    [k * step + start] with [step = (stop - start) / (num - 1)], the last
    sample then overwritten with [stop] when [num > 1]; a negative [num]
    is rejected. *)
Definition linspace_samples (start stop : R) (n : nat) : list R :=
  let step := (stop - start) / INR (n - 1) in
  let y := map (fun k => INR k * step + start) (seq 0 n) in
  if (1 <? n)%nat then removelast y ++ [stop] else y.

Definition linspace (start stop : R) (num : Z) : result (list R) :=
  if (num <? 0)%Z then throw ValueError
  else ok (linspace_samples start stop (Z.to_nat num)).

(** [np.meshgrid(x, y)] with the default [indexing='xy']. *)
Definition meshgrid (x y : list R) : list (list R) * list (list R) :=
  (map (fun _ => x) y, map (fun yi => map (fun _ => yi) x) y).

(** [np.diff(a)] is [a[1:] - a[:-1]]. *)
Definition diff (a : list R) : list R :=
  zipWith Rminus (skipn 1 a) a.

Definition sum (a : list R) : R := fold_right Rplus 0 a.

(** [np.gradient] with unit spacing and [edge_order=1], along one axis of
    elements of type [T]:
    [out[0] = f[1] - f[0]], [out[1:-1] = (f[2:] - f[:-2]) / 2],
    [out[-1] = f[-1] - f[-2]]. *)
Section Gradient.
Context {T : Type} (sub : T -> T -> T) (half : T -> T) (d : T).

Definition gradient_along (f : list T) : list T :=
  sub (nth 1 f d) (nth 0 f d)
    :: zipWith (fun a b => half (sub a b)) (skipn 2 f) f
    ++ [sub (nth (length f - 1) f d) (nth (length f - 2) f d)].
End Gradient.

Definition gradient1 : list R -> list R :=
  gradient_along Rminus (fun x => x / 2) 0.

(** [np.gradient(A, axis=...)] of a 2-D array; an axis shorter than two
    samples is rejected. *)
Definition gradient (A : list (list R)) (axis : nat) : result (list (list R)) :=
  match axis with
  | O =>
      if (length A <? 2)%nat then throw ValueError
      else ok (gradient_along (zipWith Rminus) (map (fun x => x / 2)) [] A)
  | _ =>
      if (ncols A <? 2)%nat then throw ValueError
      else ok (map gradient1 A)
  end.

End np.

(** ** SciPy: [scipy.integrate.simps]

  The composite Simpson rule for samples [y] at abscissae [x], as
  [simps(y, x)] computes it with its default [even='avg']: for an odd
  number of samples Simpson's rule on all intervals; for an even number the
  mean of (Simpson on the first [N-2] intervals plus a trapezoid on the
  last) and (a trapezoid on the first plus Simpson on the last [N-2]). *)

Module integrate.

(** The indices [range(start, stop, 2)]. *)
Definition range2 (start stop : Z) : list nat :=
  map (fun i => Z.to_nat (start + 2 * Z.of_nat i))
      (seq 0 (Z.to_nat ((stop - start + 1) / 2))).

Definition simps_term (y h : list R) (k : nat) : R :=
  let h0 := nth k h 0 in
  let h1 := nth (k + 1) h 0 in
  let hsum := h0 + h1 in
  let hprod := h0 * h1 in
  let h0divh1 := h0 / h1 in
  hsum / 6 * (nth k y 0 * (2 - 1 / h0divh1)
              + nth (k + 1) y 0 * (hsum * hsum / hprod)
              + nth (k + 2) y 0 * (2 - h0divh1)).

Definition _basic_simps (y : list R) (start stop : Z) (x : list R) : R :=
  np.sum (map (simps_term y (np.diff x)) (range2 start stop)).

Definition simps1 (y x : list R) : R :=
  let N := length y in
  let Nz := Z.of_nat N in
  if Nat.even N then
    let val := 0.5 * (nth (N - 1) x 0 - nth (N - 2) x 0)
                   * (nth (N - 1) y 0 + nth (N - 2) y 0) in
    let result := _basic_simps y 0 (Nz - 3) x in
    let val := val + 0.5 * (nth 1 x 0 - nth 0 x 0) * (nth 1 y 0 + nth 0 y 0) in
    let result := result + _basic_simps y 1 (Nz - 2) x in
    let val := val / 2 in
    let result := result / 2 in
    result + val
  else _basic_simps y 0 (Nz - 2) x.

(** [simps(y, x)] for 1-D [y]. *)
Definition simps (y x : list R) : result R :=
  if negb (length x =? length y)%nat then throw ValueError
  else if (length y =? 0)%nat then throw IndexError
  else ok (simps1 y x).

(** [simps(y, x, axis=0)] for 2-D [y]: one integral per column. *)
Definition simps_axis0 (y : list (list R)) (x : list R) : result (list R) :=
  if negb (length x =? length y)%nat then throw ValueError
  else if (length y =? 0)%nat then throw IndexError
  else ok (map (fun j => simps1 (column j y) x) (seq 0 (ncols y))).

End integrate.

(** ** The class [MobiusStrip] *)

Record MobiusStrip : Type := mkMobiusStrip {
  self_R : R;
  self_w : R;
  self_n : Z;
  self_u : list R;
  self_v : list R;
  self_U : list (list R);
  self_V : list (list R);
  self_X : list (list R);
  self_Y : list (list R);
  self_Z : list (list R)
}.

(** Methods: a computation reads and may replace the instance, and may
    raise. *)
Definition M (A : Type) : Type := MobiusStrip -> result (A * MobiusStrip).

Definition ret {A} (a : A) : M A := fun self => ok (a, self).

Definition bind {A B} (c : M A) (k : A -> M B) : M B :=
  fun self =>
    match c self with
    | inl e => inl e
    | inr (a, self') => k a self'
    end.

Definition attr {A} (field : MobiusStrip -> A) : M A :=
  fun self => ok (field self, self).

Definition lift {A} (c : result A) : M A :=
  fun self =>
    match c with
    | inl e => inl e
    | inr a => ok (a, self)
    end.

Declare Scope method_scope.
Delimit Scope method_scope with method.
Notation "x <- c ;; k" := (bind c (fun x => k))
  (at level 61, c at next level, right associativity) : method_scope.

(** A [for] loop over a list, threading the loop-carried variable. *)
Fixpoint for_each {A B} (l : list A) (body : A -> B -> M B) (acc : B) : M B :=
  match l with
  | [] => ret acc
  | a :: t => bind (body a acc) (for_each t body)
  end.

(** [_compute_points]: reads [self.R], [self.U] and [self.V], which
    [__init__] has assigned by then, and returns the three coordinate
    arrays. *)
Definition _compute_points (R0 : R) (U V : list (list R))
  : list (list R) * list (list R) * list (list R) :=
  let X := zip2d Rmult
             (map2d (fun t => R0 + t) (zip2d Rmult V (map2d cos (map2d (fun t => t / 2) U))))
             (map2d cos U) in
  let Y := zip2d Rmult
             (map2d (fun t => R0 + t) (zip2d Rmult V (map2d cos (map2d (fun t => t / 2) U))))
             (map2d sin U) in
  let Z := zip2d Rmult V (map2d sin (map2d (fun t => t / 2) U)) in
  (X, Y, Z).

(** [MobiusStrip(R, w, n)]. *)
Definition __init__ (R0 w : R) (n : Z) : result MobiusStrip :=
  (let? u := np.linspace 0 (2 * PI) n in
   let? v := np.linspace (- w / 2) (w / 2) n in
   let '(U, V) := np.meshgrid u v in
   let '(X, Y, Z) := _compute_points R0 U V in
   ok (mkMobiusStrip R0 w n u v U V X Y Z))%result.

(** [surface_area(self)].

    The two spacings [du] and [dv] are divisors.  In floating point a zero
    divisor raises nothing and yields [nan] or [inf]; the real quotient
    below stands for the source only where [du] and [dv] are non-zero,
    that is for [w <> 0] on a constructed instance, and the statements
    that give the value returned by [surface_area] carry that condition. *)
Definition surface_area : M R :=
  (u <- attr self_u ;;
   u1 <- lift (getitem 0 u 1) ;;
   u0 <- lift (getitem 0 u 0) ;;
   let du := u1 - u0 in
   v <- attr self_v ;;
   v1 <- lift (getitem 0 v 1) ;;
   v0 <- lift (getitem 0 v 0) ;;
   let dv := v1 - v0 in
   X <- attr self_X ;;
   gXu <- lift (np.gradient X 1) ;;
   let Xu := map2d (fun t => t / du) gXu in
   Y <- attr self_Y ;;
   gYu <- lift (np.gradient Y 1) ;;
   let Yu := map2d (fun t => t / du) gYu in
   Z <- attr self_Z ;;
   gZu <- lift (np.gradient Z 1) ;;
   let Zu := map2d (fun t => t / du) gZu in
   X' <- attr self_X ;;
   gXv <- lift (np.gradient X' 0) ;;
   let Xv := map2d (fun t => t / dv) gXv in
   Y' <- attr self_Y ;;
   gYv <- lift (np.gradient Y' 0) ;;
   let Yv := map2d (fun t => t / dv) gYv in
   Z' <- attr self_Z ;;
   gZv <- lift (np.gradient Z' 0) ;;
   let Zv := map2d (fun t => t / dv) gZv in
   let Nx := zip2d Rminus (zip2d Rmult Yu Zv) (zip2d Rmult Zu Yv) in
   let Ny := zip2d Rminus (zip2d Rmult Zu Xv) (zip2d Rmult Xu Zv) in
   let Nz := zip2d Rminus (zip2d Rmult Xu Yv) (zip2d Rmult Yu Xv) in
   let dA := map2d sqrt
               (zip2d Rplus
                  (zip2d Rplus (map2d (fun t => t ^ 2) Nx) (map2d (fun t => t ^ 2) Ny))
                  (map2d (fun t => t ^ 2) Nz)) in
   v' <- attr self_v ;;
   area_v <- lift (integrate.simps_axis0 dA v') ;;
   u' <- attr self_u ;;
   total_area <- lift (integrate.simps area_v u') ;;
   ret total_area)%method.

(** [edge_length(self)]. *)
Definition edge_length : M R :=
  (total_length <-
     for_each [0%Z; (-1)%Z]
       (fun v_idx total_length =>
          X <- attr self_X ;;
          x_edge <- lift (getitem [] X v_idx) ;;
          Y <- attr self_Y ;;
          y_edge <- lift (getitem [] Y v_idx) ;;
          Z <- attr self_Z ;;
          z_edge <- lift (getitem [] Z v_idx) ;;
          let dx := np.diff x_edge in
          let dy := np.diff y_edge in
          let dz := np.diff z_edge in
          let ds := map sqrt
                      (zipWith Rplus
                         (zipWith Rplus (map (fun t => t ^ 2) dx) (map (fun t => t ^ 2) dy))
                         (map (fun t => t ^ 2) dz)) in
          ret (total_length + np.sum ds))
       0 ;;
   ret total_length)%method.

(** The instance that [__init__] assigns, field by field, when the grid
    builder accepts [n]. *)
Definition strip_of (R0 w : R) (n : Z) : MobiusStrip :=
  let u := np.linspace_samples 0 (2 * PI) (Z.to_nat n) in
  let v := np.linspace_samples (- w / 2) (w / 2) (Z.to_nat n) in
  let '(U, V) := np.meshgrid u v in
  let '(X, Y, Z) := _compute_points R0 U V in
  mkMobiusStrip R0 w n u v U V X Y Z.

(** [shape A nr nc]: [A] is an [nr] by [nc] array. *)
Definition shape (A : list (list R)) (nr nc : nat) : Prop :=
  length A = nr /\ forall i, (i < nr)%nat -> length (nth i A []) = nc.

(** ** The area estimator, step by step

    A second description of [surface_area], written index by index after the
    algorithm of the specification (section 4.3), to be compared with the
    array program above. *)

Module Spec.

(** Step 1: the difference estimate at sample [k] of [N] samples [f 0 .. f (N-1)]:
    central in the interior, one-sided at both ends. *)
Definition difference (f : nat -> R) (N k : nat) : R :=
  if (k =? 0)%nat then f 1%nat - f 0%nat
  else if (k =? N - 1)%nat then f (N - 1)%nat - f (N - 2)%nat
  else (f (k + 1)%nat - f (k - 1)%nat) / 2.

Section Steps.
Variable s : MobiusStrip.
Let N := Z.to_nat (self_n s).

Definition du : R := nth 1 (self_u s) 0 - nth 0 (self_u s) 0.
Definition dv : R := nth 1 (self_v s) 0 - nth 0 (self_v s) 0.

(** Tangent along [u] (columns) and along [v] (rows) of a coordinate
    array, scaled by [1/du] and [1/dv]. *)
Definition along_u (A : list (list R)) (i j : nat) : R :=
  difference (fun j' => get2 A i j') N j / du.
Definition along_v (A : list (list R)) (i j : nat) : R :=
  difference (fun i' => get2 A i' j) N i / dv.

Definition Xu := along_u (self_X s).
Definition Yu := along_u (self_Y s).
Definition Zu := along_u (self_Z s).
Definition Xv := along_v (self_X s).
Definition Yv := along_v (self_Y s).
Definition Zv := along_v (self_Z s).

(** Step 2: the cross product of the two tangents. *)
Definition Nx (i j : nat) : R := Yu i j * Zv i j - Zu i j * Yv i j.
Definition Ny (i j : nat) : R := Zu i j * Xv i j - Xu i j * Zv i j.
Definition Nz (i j : nat) : R := Xu i j * Yv i j - Yu i j * Xv i j.

(** Step 3: the area element. *)
Definition dA (i j : nat) : R := sqrt (Nx i j ^ 2 + Ny i j ^ 2 + Nz i j ^ 2).

(** Step 4: integrate over [v] along the column of each [u]. *)
Definition area_v (j : nat) : R :=
  integrate.simps1 (map (fun i => dA i j) (seq 0 N)) (self_v s).

(** Step 5: integrate the column integrals over [u], same rule. *)
Definition total_area : R :=
  integrate.simps1 (map area_v (seq 0 N)) (self_u s).

End Steps.

(** ** The edge-length estimator, row by row (section 4.4)

    Segment [j] of row [i] joins the points of columns [j] and [j+1]; a row
    of [N] points is an open polyline of [N-1] segments, none of which joins
    the last point back to the first. *)
Definition segment (s : MobiusStrip) (i j : nat) : R :=
  sqrt ((get2 (self_X s) i (j + 1) - get2 (self_X s) i j) ^ 2
        + (get2 (self_Y s) i (j + 1) - get2 (self_Y s) i j) ^ 2
        + (get2 (self_Z s) i (j + 1) - get2 (self_Z s) i j) ^ 2).

Definition polyline (s : MobiusStrip) (i : nat) : R :=
  np.sum (map (segment s i) (seq 0 (Z.to_nat (self_n s) - 1))).

Definition edge_length (s : MobiusStrip) : R :=
  polyline s 0 + polyline s (Z.to_nat (self_n s) - 1).

(** The trapezoid on two samples. *)
Definition trapezoid2 (y0 y1 x0 x1 : R) : R := (x1 - x0) * (y0 + y1) / 2.

End Spec.

(** The array [dA] that [surface_area] builds from the fields of [s]. *)
Definition dA_array (s : MobiusStrip) : list (list R) :=
  let du := nth 1 (self_u s) 0 - nth 0 (self_u s) 0 in
  let dv := nth 1 (self_v s) 0 - nth 0 (self_v s) 0 in
  let gu A := map2d (fun t => t / du) (map np.gradient1 A) in
  let gv A := map2d (fun t => t / dv)
                (np.gradient_along (zipWith Rminus) (map (fun x => x / 2)) [] A) in
  let Xu := gu (self_X s) in
  let Yu := gu (self_Y s) in
  let Zu := gu (self_Z s) in
  let Xv := gv (self_X s) in
  let Yv := gv (self_Y s) in
  let Zv := gv (self_Z s) in
  let Nx := zip2d Rminus (zip2d Rmult Yu Zv) (zip2d Rmult Zu Yv) in
  let Ny := zip2d Rminus (zip2d Rmult Zu Xv) (zip2d Rmult Xu Zv) in
  let Nz := zip2d Rminus (zip2d Rmult Xu Yv) (zip2d Rmult Yu Xv) in
  map2d sqrt
    (zip2d Rplus
       (zip2d Rplus (map2d (fun t => t ^ 2) Nx) (map2d (fun t => t ^ 2) Ny))
       (map2d (fun t => t ^ 2) Nz)).

(** A method is read-only when every run that returns hands back the
    instance it was given. *)
Definition read_only {A} (c : M A) : Prop :=
  forall s a s', c s = inr (a, s') -> s' = s.

(** A valid configuration (section 3, [ShapeConfig]). *)
Definition valid (R0 w : R) (n : Z) : Prop :=
  0 < R0 /\ 0 < w /\ (2 <= n)%Z.

(** The class invariant that [__init__] establishes for [n >= 2]: the
    grid vectors have [N] samples and the point arrays are [N] by [N]. *)
Definition well_formed (s : MobiusStrip) (N : nat) : Prop :=
  (2 <= N)%nat /\ self_n s = Z.of_nat N /\
  length (self_u s) = N /\ length (self_v s) = N /\
  shape (self_X s) N N /\ shape (self_Y s) N N /\ shape (self_Z s) N N.

(** * Properties *)

(** ** Lists and arrays *)

Section ZipWith.
Context {A B C : Type} (f : A -> B -> C).

Lemma zipWith_length (l : list A) (l' : list B) :
  length (zipWith f l l') = Nat.min (length l) (length l').
Proof.
  revert l'; induction l as [|a l IH]; intros [|b l']; simpl; auto.
Qed.

Lemma nth_zipWith (da : A) (db : B) (dc : C) (l : list A) (l' : list B) (k : nat) :
  (k < length l)%nat -> (k < length l')%nat ->
  nth k (zipWith f l l') dc = f (nth k l da) (nth k l' db).
Proof.
  revert l' k; induction l as [|a l IH]; intros [|b l'] [|k]; simpl; intros;
    try lia; auto.
  apply IH; lia.
Qed.
End ZipWith.

Lemma nth_map_in {A B} (f : A -> B) (da : A) (db : B) (l : list A) (k : nat) :
  (k < length l)%nat -> nth k (map f l) db = f (nth k l da).
Proof.
  intros Hk. rewrite (nth_indep _ db (f da)) by (rewrite length_map; exact Hk).
  apply map_nth.
Qed.

Lemma nth_map_seq {B} (f : nat -> B) (d : B) (n k : nat) :
  (k < n)%nat -> nth k (map f (seq 0 n)) d = f k.
Proof.
  intros Hk. rewrite (nth_map_in f 0%nat) by (rewrite length_seq; exact Hk).
  rewrite seq_nth by exact Hk. reflexivity.
Qed.

Lemma nth_skipn {A} (d : A) (m k : nat) (l : list A) :
  nth k (skipn m l) d = nth (m + k) l d.
Proof.
  revert l; induction m as [|m IH]; intros [|a l]; simpl; auto.
  destruct k; reflexivity.
Qed.

(** ** The grid builder *)

Lemma linspace_samples_S (a b : R) (m : nat) :
  (1 <= m)%nat ->
  np.linspace_samples a b (S m)
  = map (fun k => INR k * ((b - a) / INR m) + a) (seq 0 m) ++ [b].
Proof.
  intros Hm. unfold np.linspace_samples.
  replace (S m - 1)%nat with m by lia.
  destruct (Nat.ltb_spec 1 (S m)) as [_|H]; [|lia].
  rewrite seq_S, map_app. simpl map at 2. rewrite removelast_last. reflexivity.
Qed.

Lemma linspace_samples_length (a b : R) (n : nat) :
  length (np.linspace_samples a b n) = n.
Proof.
  destruct n as [|[|m]]; try reflexivity.
  rewrite linspace_samples_S by lia.
  rewrite last_length, length_map, length_seq. reflexivity.
Qed.

Lemma linspace_samples_nth (a b : R) (n k : nat) :
  (2 <= n)%nat -> (k < n)%nat ->
  nth k (np.linspace_samples a b n) 0 = a + INR k * ((b - a) / INR (n - 1)).
Proof.
  intros Hn Hk. destruct n as [|m]; [lia|].
  rewrite linspace_samples_S by lia.
  replace (S m - 1)%nat with m by lia.
  destruct (Nat.eq_dec k m) as [->|Hne].
  - rewrite app_nth2; rewrite length_map, length_seq; [|lia].
    rewrite Nat.sub_diag. simpl.
    assert (INR m <> 0) by (apply not_0_INR; lia). field. assumption.
  - rewrite app_nth1 by (rewrite length_map, length_seq; lia).
    rewrite nth_map_seq by lia. ring.
Qed.

Lemma linspace_samples_first (a b : R) (n : nat) :
  (2 <= n)%nat -> nth 0 (np.linspace_samples a b n) 0 = a.
Proof.
  intros Hn. rewrite linspace_samples_nth by lia. simpl. ring.
Qed.

Lemma linspace_samples_last (a b : R) (n : nat) :
  (2 <= n)%nat -> nth (n - 1) (np.linspace_samples a b n) 0 = b.
Proof.
  intros Hn. destruct n as [|m]; [lia|].
  rewrite linspace_samples_S by lia.
  replace (S m - 1)%nat with m by lia.
  rewrite app_nth2; rewrite length_map, length_seq; [|lia].
  rewrite Nat.sub_diag. reflexivity.
Qed.

Lemma init_accepts (R0 w : R) (n : Z) :
  (0 <= n)%Z -> __init__ R0 w n = inr (strip_of R0 w n).
Proof.
  intros Hn. unfold __init__, np.linspace, strip_of.
  destruct (Z.ltb_spec n 0) as [H|_]; [lia|]. reflexivity.
Qed.

Lemma init_rejects (R0 w : R) (n : Z) :
  (n < 0)%Z -> __init__ R0 w n = inl ValueError.
Proof.
  intros Hn. unfold __init__, np.linspace.
  destruct (Z.ltb_spec n 0) as [_|H]; [reflexivity|lia].
Qed.

(** ** Shapes and elementwise operations *)

Lemma shape_map2d (f : R -> R) (A : list (list R)) (nr nc : nat) :
  shape A nr nc -> shape (map2d f A) nr nc.
Proof.
  intros [HA HR]. unfold map2d. split.
  - rewrite length_map. exact HA.
  - intros i Hi. rewrite (nth_map_in _ []) by lia.
    rewrite length_map. auto.
Qed.

Lemma shape_zip2d (f : R -> R -> R) (A B : list (list R)) (nr nc : nat) :
  shape A nr nc -> shape B nr nc -> shape (zip2d f A B) nr nc.
Proof.
  intros [HA HRA] [HB HRB]. unfold zip2d. split.
  - rewrite zipWith_length. lia.
  - intros i Hi. rewrite (nth_zipWith _ [] []) by lia.
    rewrite zipWith_length, HRA, HRB by lia. lia.
Qed.

Lemma get2_map2d (f : R -> R) (A : list (list R)) (nr nc i j : nat) :
  shape A nr nc -> (i < nr)%nat -> (j < nc)%nat ->
  get2 (map2d f A) i j = f (get2 A i j).
Proof.
  intros [HA HR] Hi Hj. unfold get2, map2d.
  rewrite (nth_map_in _ []) by lia.
  rewrite (nth_map_in _ 0) by (rewrite HR; lia). reflexivity.
Qed.

Lemma get2_zip2d (f : R -> R -> R) (A B : list (list R)) (nr nc i j : nat) :
  shape A nr nc -> shape B nr nc -> (i < nr)%nat -> (j < nc)%nat ->
  get2 (zip2d f A B) i j = f (get2 A i j) (get2 B i j).
Proof.
  intros [HA HRA] [HB HRB] Hi Hj. unfold get2, zip2d.
  rewrite (nth_zipWith _ [] []) by lia.
  rewrite (nth_zipWith _ 0 0) by (rewrite ?HRA, ?HRB; lia). reflexivity.
Qed.

Lemma shape_meshgrid_U (x y : list R) :
  shape (fst (np.meshgrid x y)) (length y) (length x).
Proof.
  split; simpl.
  - apply length_map.
  - intros i Hi. rewrite (nth_map_in _ 0) by lia. reflexivity.
Qed.

Lemma shape_meshgrid_V (x y : list R) :
  shape (snd (np.meshgrid x y)) (length y) (length x).
Proof.
  split; simpl.
  - apply length_map.
  - intros i Hi. rewrite (nth_map_in _ 0) by lia. apply length_map.
Qed.

Lemma get2_meshgrid_U (x y : list R) (i j : nat) :
  (i < length y)%nat -> get2 (fst (np.meshgrid x y)) i j = nth j x 0.
Proof.
  intros Hi. unfold get2. simpl. rewrite (nth_map_in _ 0) by lia. reflexivity.
Qed.

Lemma get2_meshgrid_V (x y : list R) (i j : nat) :
  (i < length y)%nat -> (j < length x)%nat ->
  get2 (snd (np.meshgrid x y)) i j = nth i y 0.
Proof.
  intros Hi Hj. unfold get2. simpl. rewrite (nth_map_in _ 0) by lia.
  rewrite (nth_map_in _ 0) by lia. reflexivity.
Qed.

Create HintDb shape.
#[local] Hint Resolve shape_map2d shape_zip2d shape_meshgrid_U shape_meshgrid_V : shape.

(** ** The constructed instance *)

Section Constructed.
Variables (R0 w : R) (n : Z).
Let N := Z.to_nat n.
Let s := strip_of R0 w n.

Lemma strip_u : self_u s = np.linspace_samples 0 (2 * PI) N.
Proof. reflexivity. Qed.

Lemma strip_v : self_v s = np.linspace_samples (- w / 2) (w / 2) N.
Proof. reflexivity. Qed.

Lemma strip_U : self_U s = fst (np.meshgrid (self_u s) (self_v s)).
Proof. reflexivity. Qed.

Lemma strip_V : self_V s = snd (np.meshgrid (self_u s) (self_v s)).
Proof. reflexivity. Qed.

Lemma strip_X : self_X s = fst (fst (_compute_points R0 (self_U s) (self_V s))).
Proof. reflexivity. Qed.

Lemma strip_Y : self_Y s = snd (fst (_compute_points R0 (self_U s) (self_V s))).
Proof. reflexivity. Qed.

Lemma strip_Z : self_Z s = snd (_compute_points R0 (self_U s) (self_V s)).
Proof. reflexivity. Qed.

Ltac points_of H :=
  rewrite H; cbv beta zeta iota delta [fst snd _compute_points].

Lemma length_u : length (self_u s) = N.
Proof. apply linspace_samples_length. Qed.

Lemma length_v : length (self_v s) = N.
Proof. apply linspace_samples_length. Qed.

Lemma shape_U : shape (self_U s) N N.
Proof.
  rewrite strip_U. rewrite <- length_u at 2. rewrite <- length_v at 1.
  apply shape_meshgrid_U.
Qed.

Lemma shape_V : shape (self_V s) N N.
Proof.
  rewrite strip_V. rewrite <- length_u at 2. rewrite <- length_v at 1.
  apply shape_meshgrid_V.
Qed.

Lemma shape_X : shape (self_X s) N N.
Proof.
  points_of strip_X.
  pose proof shape_U. pose proof shape_V. auto 10 with shape.
Qed.

Lemma shape_Y : shape (self_Y s) N N.
Proof.
  points_of strip_Y.
  pose proof shape_U. pose proof shape_V. auto 10 with shape.
Qed.

Lemma shape_Z : shape (self_Z s) N N.
Proof.
  points_of strip_Z.
  pose proof shape_U. pose proof shape_V. auto 10 with shape.
Qed.

Lemma U_at (i j : nat) :
  (i < N)%nat -> get2 (self_U s) i j = nth j (self_u s) 0.
Proof.
  intros Hi. rewrite strip_U. apply get2_meshgrid_U. rewrite length_v. exact Hi.
Qed.

Lemma V_at (i j : nat) :
  (i < N)%nat -> (j < N)%nat -> get2 (self_V s) i j = nth i (self_v s) 0.
Proof.
  intros Hi Hj. rewrite strip_V.
  apply get2_meshgrid_V; rewrite ?length_v, ?length_u; assumption.
Qed.

Ltac get2_points :=
  repeat first
    [ erewrite get2_zip2d by (eauto 10 using shape_U, shape_V with shape)
    | erewrite get2_map2d by (eauto 10 using shape_U, shape_V with shape) ].

Lemma X_at (i j : nat) :
  (i < N)%nat -> (j < N)%nat ->
  get2 (self_X s) i j
  = (R0 + get2 (self_V s) i j * cos (get2 (self_U s) i j / 2))
    * cos (get2 (self_U s) i j).
Proof.
  intros Hi Hj. points_of strip_X. get2_points. reflexivity.
Qed.

Lemma Y_at (i j : nat) :
  (i < N)%nat -> (j < N)%nat ->
  get2 (self_Y s) i j
  = (R0 + get2 (self_V s) i j * cos (get2 (self_U s) i j / 2))
    * sin (get2 (self_U s) i j).
Proof.
  intros Hi Hj. points_of strip_Y. get2_points. reflexivity.
Qed.

Lemma Z_at (i j : nat) :
  (i < N)%nat -> (j < N)%nat ->
  get2 (self_Z s) i j
  = get2 (self_V s) i j * sin (get2 (self_U s) i j / 2).
Proof.
  intros Hi Hj. points_of strip_Z. get2_points. reflexivity.
Qed.

End Constructed.

Lemma u_at (R0 w : R) (n : Z) (j : nat) :
  (2 <= n)%Z -> (j < Z.to_nat n)%nat ->
  nth j (self_u (strip_of R0 w n)) 0 = INR j * (2 * PI / INR (Z.to_nat n - 1)).
Proof.
  intros Hn Hj. rewrite strip_u, linspace_samples_nth by lia.
  unfold Rdiv. ring.
Qed.

Lemma v_at (R0 w : R) (n : Z) (i : nat) :
  (2 <= n)%Z -> (i < Z.to_nat n)%nat ->
  nth i (self_v (strip_of R0 w n)) 0
  = - w / 2 + INR i * (w / INR (Z.to_nat n - 1)).
Proof.
  intros Hn Hi. rewrite strip_v, linspace_samples_nth by lia.
  assert (INR (Z.to_nat n - 1) <> 0) by (apply not_0_INR; lia).
  field. assumption.
Qed.

Lemma v_reflect (R0 w : R) (n : Z) (i : nat) :
  (2 <= n)%Z -> (i < Z.to_nat n)%nat ->
  nth (Z.to_nat n - 1 - i) (self_v (strip_of R0 w n)) 0
  = - nth i (self_v (strip_of R0 w n)) 0.
Proof.
  intros Hn Hi. rewrite !v_at by lia.
  rewrite minus_INR by lia.
  assert (INR (Z.to_nat n - 1) <> 0) by (apply not_0_INR; lia).
  field. assumption.
Qed.

(** C5.  For [n >= 2] construction succeeds and the grid is the closed
    uniform one: [u] has [n] samples from [0] to [2*PI] and [v] has [n]
    samples from [-w/2] to [w/2], both ends included, sample [k] lying [k]
    steps from the first; consecutive samples differ by the constant steps
    [2*PI/(n-1)] and [w/(n-1)]; and the mesh arrays are [n] by [n] with
    [U[i,j] = u[j]] and [V[i,j] = v[i]]. *)
Theorem grid_is_uniform (R0 w : R) (n : Z) :
  (2 <= n)%Z ->
  exists s, __init__ R0 w n = inr s /\
    let N := Z.to_nat n in
    let u := self_u s in
    let v := self_v s in
    (length u = N /\ nth 0 u 0 = 0 /\ nth (N - 1) u 0 = 2 * PI) /\
    (length v = N /\ nth 0 v 0 = - w / 2 /\ nth (N - 1) v 0 = w / 2) /\
    (forall j, (j < N)%nat -> nth j u 0 = INR j * (2 * PI / INR (N - 1))) /\
    (forall i, (i < N)%nat -> nth i v 0 = - w / 2 + INR i * (w / INR (N - 1))) /\
    (forall j, (S j < N)%nat -> nth (S j) u 0 - nth j u 0 = 2 * PI / INR (N - 1)) /\
    (forall i, (S i < N)%nat -> nth (S i) v 0 - nth i v 0 = w / INR (N - 1)) /\
    shape (self_U s) N N /\ shape (self_V s) N N /\
    (forall i j, (i < N)%nat -> (j < N)%nat ->
       get2 (self_U s) i j = nth j u 0 /\ get2 (self_V s) i j = nth i v 0).
Proof.
  intros Hn. exists (strip_of R0 w n). split; [apply init_accepts; lia|].
  cbv zeta. repeat split.
  - apply length_u.
  - rewrite strip_u. apply linspace_samples_first. lia.
  - rewrite strip_u. apply linspace_samples_last. lia.
  - apply length_v.
  - rewrite strip_v. apply linspace_samples_first. lia.
  - rewrite strip_v. apply linspace_samples_last. lia.
  - intros j Hj. apply u_at; assumption.
  - intros i Hi. apply v_at; assumption.
  - intros j Hj. rewrite !u_at by lia. rewrite S_INR. ring.
  - intros i Hi. rewrite !v_at by lia. rewrite S_INR. ring.
  - apply shape_U.
  - apply shape_U.
  - apply shape_V.
  - apply shape_V.
  - apply U_at; assumption.
  - apply V_at; assumption.
Qed.

Lemma grid_is_uniform_witness :
  (2 <= 3)%Z /\
  exists s, __init__ 1 0.2 3 = inr s /\
    length (self_u s) = 3%nat /\ nth 2 (self_u s) 0 = 2 * PI /\
    nth 2 (self_v s) 0 = 0.2 / 2 /\ get2 (self_V s) 2 0 = nth 2 (self_v s) 0.
Proof.
  split; [lia|].
  destruct (grid_is_uniform 1 0.2 3 ltac:(lia))
    as (s & Hs & (Hlu & _ & Hu) & (_ & _ & Hv) & _ & _ & _ & _ & _ & _ & HUV).
  exists s. repeat split; try assumption.
  apply (HUV 2%nat 0%nat); simpl; lia.
Defined.

(** C2.  For [n >= 2] construction succeeds and, at every grid index,
    [X = (R + V*cos(U/2)) * cos U], [Y = (R + V*cos(U/2)) * sin U] and
    [Z = V * sin(U/2)], the half angle being [U/2]. *)
Theorem points_follow_parametrization (R0 w : R) (n : Z) :
  (2 <= n)%Z ->
  exists s, __init__ R0 w n = inr s /\
    let N := Z.to_nat n in
    shape (self_X s) N N /\ shape (self_Y s) N N /\ shape (self_Z s) N N /\
    forall i j, (i < N)%nat -> (j < N)%nat ->
      let U := get2 (self_U s) i j in
      let V := get2 (self_V s) i j in
      get2 (self_X s) i j = (self_R s + V * cos (U / 2)) * cos U /\
      get2 (self_Y s) i j = (self_R s + V * cos (U / 2)) * sin U /\
      get2 (self_Z s) i j = V * sin (U / 2).
Proof.
  intros Hn. exists (strip_of R0 w n). split; [apply init_accepts; lia|].
  cbv zeta. split; [apply shape_X|]. split; [apply shape_Y|].
  split; [apply shape_Z|]. intros i j Hi Hj.
  rewrite X_at, Y_at, Z_at by assumption. auto.
Qed.

Lemma points_follow_parametrization_witness :
  (2 <= 3)%Z /\
  exists s, __init__ 1 0.2 3 = inr s /\
    get2 (self_Z s) 0 1 = get2 (self_V s) 0 1 * sin (get2 (self_U s) 0 1 / 2).
Proof.
  split; [lia|].
  destruct (points_follow_parametrization 1 0.2 3 ltac:(lia))
    as (s & Hs & _ & _ & _ & H).
  exists s. split; [exact Hs|].
  apply (H 0%nat 1%nat); simpl; lia.
Defined.

(** ** Symmetries of the point arrays *)

Lemma u_first (R0 w : R) (n : Z) :
  (2 <= n)%Z -> nth 0 (self_u (strip_of R0 w n)) 0 = 0.
Proof. intros Hn. rewrite strip_u. apply linspace_samples_first. lia. Qed.

Lemma u_last (R0 w : R) (n : Z) :
  (2 <= n)%Z -> nth (Z.to_nat n - 1) (self_u (strip_of R0 w n)) 0 = 2 * PI.
Proof. intros Hn. rewrite strip_u. apply linspace_samples_last. lia. Qed.

Lemma half_turn : 2 * PI / 2 = PI.
Proof. field. Qed.

Lemma half_zero : 0 / 2 = 0.
Proof. field. Qed.

(** The points of the first column, where [u = 0]. *)
Lemma first_column (R0 w : R) (n : Z) (i : nat) :
  (2 <= n)%Z -> (i < Z.to_nat n)%nat ->
  let s := strip_of R0 w n in
  get2 (self_X s) i 0 = R0 + nth i (self_v s) 0 /\
  get2 (self_Y s) i 0 = 0 /\
  get2 (self_Z s) i 0 = 0.
Proof.
  intros Hn Hi s. unfold s.
  rewrite X_at, Y_at, Z_at, U_at, V_at, u_first by lia.
  rewrite half_zero, cos_0, sin_0. repeat split; ring.
Qed.

(** The points of the last column, where [u = 2*PI]. *)
Lemma last_column (R0 w : R) (n : Z) (i : nat) :
  (2 <= n)%Z -> (i < Z.to_nat n)%nat ->
  let s := strip_of R0 w n in
  let N := Z.to_nat n in
  get2 (self_X s) i (N - 1) = R0 - nth i (self_v s) 0 /\
  get2 (self_Y s) i (N - 1) = 0 /\
  get2 (self_Z s) i (N - 1) = 0.
Proof.
  intros Hn Hi s N. unfold s, N.
  rewrite X_at, Y_at, Z_at, U_at, V_at, u_last by lia.
  rewrite half_turn, cos_PI, sin_PI, cos_2PI, sin_2PI. repeat split; ring.
Qed.

(** C9.  The seam: for [n >= 2] and every row [i], the point of the last
    [u]-column in row [i] is the point of the first [u]-column in the
    reversed row [n-1-i]; both are [(R - v[i], 0, 0)]. *)
Theorem seam_identification (R0 w : R) (n : Z) :
  (2 <= n)%Z ->
  exists s, __init__ R0 w n = inr s /\
    let N := Z.to_nat n in
    forall i, (i < N)%nat ->
      (get2 (self_X s) i (N - 1), get2 (self_Y s) i (N - 1), get2 (self_Z s) i (N - 1))
      = (get2 (self_X s) (N - 1 - i) 0, get2 (self_Y s) (N - 1 - i) 0,
         get2 (self_Z s) (N - 1 - i) 0)
      /\
      (get2 (self_X s) i (N - 1), get2 (self_Y s) i (N - 1), get2 (self_Z s) i (N - 1))
      = (R0 - nth i (self_v s) 0, 0, 0).
Proof.
  intros Hn. exists (strip_of R0 w n). split; [apply init_accepts; lia|].
  intros N i Hi.
  destruct (last_column R0 w n i Hn Hi) as (HX & HY & HZ).
  destruct (first_column R0 w n (N - 1 - i) Hn ltac:(unfold N; lia))
    as (HX0 & HY0 & HZ0).
  fold N in HX, HY, HZ. rewrite HX, HY, HZ, HX0, HY0, HZ0.
  unfold N. rewrite v_reflect by assumption. split; f_equal; f_equal; ring.
Qed.

Lemma seam_identification_witness :
  (2 <= 4)%Z /\
  exists s, __init__ 1 0.2 4 = inr s /\
    get2 (self_X s) 1 3 = get2 (self_X s) 2 0 /\ get2 (self_Z s) 1 3 = 0.
Proof.
  split; [lia|].
  destruct (seam_identification 1 0.2 4 ltac:(lia)) as (s & Hs & H).
  exists s. split; [exact Hs|].
  destruct (H 1%nat ltac:(simpl; lia)) as [[= E1 _ _] [= _ _ E2]].
  split; [exact E1 | exact E2].
Defined.

(** C10.  For [n >= 2] the array [Z] is antisymmetric under reflection of
    the rows, [Z[n-1-i, j] = - Z[i, j]], and for odd [n] its middle row
    vanishes. *)
Theorem Z_antisymmetric (R0 w : R) (n : Z) :
  (2 <= n)%Z ->
  exists s, __init__ R0 w n = inr s /\
    let N := Z.to_nat n in
    (forall i j, (i < N)%nat -> (j < N)%nat ->
       get2 (self_Z s) (N - 1 - i) j = - get2 (self_Z s) i j) /\
    (Nat.odd N = true ->
     forall j, (j < N)%nat -> get2 (self_Z s) ((N - 1) / 2) j = 0).
Proof.
  intros Hn. exists (strip_of R0 w n). split; [apply init_accepts; lia|].
  intros N.
  assert (Hanti : forall i j, (i < N)%nat -> (j < N)%nat ->
            get2 (self_Z (strip_of R0 w n)) (N - 1 - i) j
            = - get2 (self_Z (strip_of R0 w n)) i j).
  { intros i j Hi Hj. unfold N.
    rewrite !Z_at, !V_at, !U_at, v_reflect by lia. ring. }
  split; [exact Hanti|].
  intros Hodd j Hj.
  destruct (proj1 (Nat.odd_spec N) Hodd) as [m Hm].
  assert (Hmid : (N - 1 - (N - 1) / 2 = (N - 1) / 2)%nat).
  { replace (N - 1)%nat with (m * 2)%nat by lia. rewrite Nat.div_mul; lia. }
  assert (Hlt : ((N - 1) / 2 < N)%nat).
  { replace (N - 1)%nat with (m * 2)%nat by lia. rewrite Nat.div_mul; lia. }
  specialize (Hanti ((N - 1) / 2)%nat j Hlt Hj). rewrite Hmid in Hanti. lra.
Qed.

Lemma Z_antisymmetric_witness :
  (2 <= 3)%Z /\
  exists s, __init__ 1 0.2 3 = inr s /\
    get2 (self_Z s) 2 1 = - get2 (self_Z s) 0 1 /\ get2 (self_Z s) 1 1 = 0.
Proof.
  split; [lia|].
  destruct (Z_antisymmetric 1 0.2 3 ltac:(lia)) as (s & Hs & Ha & Hm).
  exists s. split; [exact Hs|]. split.
  - apply (Ha 0%nat 1%nat); simpl; lia.
  - apply (Hm eq_refl 1%nat). simpl; lia.
Defined.

(** ** Finite differences *)

Section GradientAlong.
Context {T : Type} (sub : T -> T -> T) (half : T -> T) (d : T).

Lemma gradient_along_length (f : list T) :
  (2 <= length f)%nat -> length (np.gradient_along sub half d f) = length f.
Proof.
  intros Hf. unfold np.gradient_along. cbn [length].
  rewrite last_length, zipWith_length, length_skipn. lia.
Qed.

Lemma nth_gradient_along (f : list T) (k : nat) :
  (2 <= length f)%nat -> (k < length f)%nat ->
  nth k (np.gradient_along sub half d f) d
  = if (k =? 0)%nat then sub (nth 1 f d) (nth 0 f d)
    else if (k =? length f - 1)%nat
         then sub (nth (length f - 1) f d) (nth (length f - 2) f d)
         else half (sub (nth (k + 1) f d) (nth (k - 1) f d)).
Proof.
  intros Hf Hk. unfold np.gradient_along.
  destruct k as [|k]; [reflexivity|].
  change (S k =? 0)%nat with false. cbv iota.
  change (nth (S k) (?a :: ?l) d) with (nth k l d).
  assert (Hlen : length (zipWith (fun a b => half (sub a b)) (skipn 2 f) f)
                 = (length f - 2)%nat)
    by (rewrite zipWith_length, length_skipn; lia).
  destruct (Nat.eqb_spec (S k) (length f - 1)) as [E|E].
  - rewrite app_nth2 by lia. rewrite Hlen.
    replace (k - (length f - 2))%nat with 0%nat by lia. reflexivity.
  - rewrite app_nth1 by lia.
    rewrite (nth_zipWith _ d d) by (rewrite ?length_skipn; lia).
    rewrite nth_skipn.
    replace (S k + 1)%nat with (2 + k)%nat by lia.
    replace (S k - 1)%nat with k by lia. reflexivity.
Qed.
End GradientAlong.

Lemma shape_gradient_u (A : list (list R)) (nr nc : nat) :
  (2 <= nc)%nat -> shape A nr nc -> shape (map np.gradient1 A) nr nc.
Proof.
  intros Hnc [HA HR]. split.
  - rewrite length_map. exact HA.
  - intros i Hi. rewrite (nth_map_in _ []) by lia.
    unfold np.gradient1. rewrite gradient_along_length; rewrite HR; lia.
Qed.

Lemma get2_gradient_u (A : list (list R)) (nr nc i j : nat) :
  (2 <= nc)%nat -> shape A nr nc -> (i < nr)%nat -> (j < nc)%nat ->
  get2 (map np.gradient1 A) i j = Spec.difference (fun j' => get2 A i j') nc j.
Proof.
  intros Hnc [HA HR] Hi Hj. unfold get2 at 1.
  rewrite (nth_map_in _ []) by lia. unfold np.gradient1.
  rewrite nth_gradient_along by (rewrite HR; lia).
  rewrite HR by lia. reflexivity.
Qed.

Lemma shape_gradient_v (A : list (list R)) (nr nc : nat) :
  (2 <= nr)%nat -> shape A nr nc ->
  shape (np.gradient_along (zipWith Rminus) (map (fun x => x / 2)) [] A) nr nc.
Proof.
  intros Hnr [HA HR]. split.
  - rewrite gradient_along_length; lia.
  - intros i Hi. rewrite nth_gradient_along by lia.
    destruct (Nat.eqb_spec i 0); [|destruct (Nat.eqb_spec i (length A - 1))];
      rewrite ?length_map, zipWith_length, !HR by lia; lia.
Qed.

Lemma get2_gradient_v (A : list (list R)) (nr nc i j : nat) :
  (2 <= nr)%nat -> shape A nr nc -> (i < nr)%nat -> (j < nc)%nat ->
  get2 (np.gradient_along (zipWith Rminus) (map (fun x => x / 2)) [] A) i j
  = Spec.difference (fun i' => get2 A i' j) nr i.
Proof.
  intros Hnr [HA HR] Hi Hj. unfold get2 at 1, Spec.difference.
  rewrite nth_gradient_along by lia. rewrite HA.
  destruct (Nat.eqb_spec i 0); [|destruct (Nat.eqb_spec i (nr - 1))].
  - rewrite (nth_zipWith _ 0 0) by (rewrite HR; lia). reflexivity.
  - rewrite (nth_zipWith _ 0 0) by (rewrite HR; lia). reflexivity.
  - rewrite (nth_map_in _ 0) by (rewrite zipWith_length, !HR; lia).
    rewrite (nth_zipWith _ 0 0) by (rewrite HR; lia). reflexivity.
Qed.

(** ** Running the methods *)

Lemma bind_attr {A B} (field : MobiusStrip -> A) (k : A -> M B) (s : MobiusStrip) :
  bind (attr field) k s = k (field s) s.
Proof. reflexivity. Qed.

Lemma bind_lift {A B} (c : result A) (a : A) (k : A -> M B) (s : MobiusStrip) :
  c = inr a -> bind (lift c) k s = k a s.
Proof. intros ->. reflexivity. Qed.

Lemma bind_lift_raises {A B} (c : result A) (e : exn) (k : A -> M B) (s : MobiusStrip) :
  c = inl e -> bind (lift c) k s = inl e.
Proof. intros ->. reflexivity. Qed.

Lemma getitem_at {A} (d : A) (l : list A) (k : nat) :
  (k < length l)%nat -> getitem d l (Z.of_nat k) = inr (nth k l d).
Proof.
  intros Hk. unfold getitem, py_index.
  destruct (Z.ltb_spec (Z.of_nat k) 0) as [H|_]; [lia|].
  destruct (Z.leb_spec 0 (Z.of_nat k)) as [_|H]; [|lia].
  destruct (Z.ltb_spec (Z.of_nat k) (Z.of_nat (length l))) as [_|H]; [|lia].
  simpl. rewrite Nat2Z.id. reflexivity.
Qed.

Lemma getitem_last {A} (d : A) (l : list A) :
  (0 < length l)%nat -> getitem d l (-1) = inr (nth (length l - 1) l d).
Proof.
  intros Hl. unfold getitem, py_index. change (-1 <? 0)%Z with true. cbv iota.
  destruct (Z.leb_spec 0 (-1 + Z.of_nat (length l))) as [_|H]; [|lia].
  destruct (Z.ltb_spec (-1 + Z.of_nat (length l)) (Z.of_nat (length l))) as [_|H]; [|lia].
  cbv [andb]. replace (Z.to_nat (-1 + Z.of_nat (length l))) with (length l - 1)%nat by lia.
  reflexivity.
Qed.

Lemma getitem_out_of_range {A} (d : A) (l : list A) (k : nat) :
  (length l <= k)%nat -> getitem d l (Z.of_nat k) = inl IndexError.
Proof.
  intros Hk. unfold getitem, py_index.
  destruct (Z.ltb_spec (Z.of_nat k) 0) as [H|_]; [lia|].
  destruct (Z.ltb_spec (Z.of_nat k) (Z.of_nat (length l))) as [H|_]; [lia|].
  rewrite andb_false_r. reflexivity.
Qed.

Lemma ncols_shape (A : list (list R)) (nr nc : nat) :
  (0 < nr)%nat -> shape A nr nc -> ncols A = nc.
Proof.
  intros Hnr [HA HR]. unfold ncols. rewrite <- (HR 0%nat Hnr).
  destruct A; reflexivity.
Qed.

Lemma gradient_u_runs (A : list (list R)) (nr nc : nat) :
  (0 < nr)%nat -> (2 <= nc)%nat -> shape A nr nc ->
  np.gradient A 1 = inr (map np.gradient1 A).
Proof.
  intros Hnr Hnc HA. unfold np.gradient. rewrite (ncols_shape A nr nc) by assumption.
  destruct (Nat.ltb_spec nc 2); [lia|reflexivity].
Qed.

Lemma gradient_v_runs (A : list (list R)) (nr nc : nat) :
  (2 <= nr)%nat -> shape A nr nc ->
  np.gradient A 0
  = inr (np.gradient_along (zipWith Rminus) (map (fun x => x / 2)) [] A).
Proof.
  intros Hnr [HA _]. unfold np.gradient. rewrite HA.
  destruct (Nat.ltb_spec nr 2); [lia|reflexivity].
Qed.

Lemma simps_runs (y x : list R) :
  length x = length y -> (0 < length y)%nat ->
  integrate.simps y x = inr (integrate.simps1 y x).
Proof.
  intros Hx Hy. unfold integrate.simps. rewrite Hx, Nat.eqb_refl. simpl.
  destruct (Nat.eqb_spec (length y) 0); [lia|reflexivity].
Qed.

Lemma simps_axis0_runs (y : list (list R)) (x : list R) :
  length x = length y -> (0 < length y)%nat ->
  integrate.simps_axis0 y x
  = inr (map (fun j => integrate.simps1 (column j y) x) (seq 0 (ncols y))).
Proof.
  intros Hx Hy. unfold integrate.simps_axis0. rewrite Hx, Nat.eqb_refl. simpl.
  destruct (Nat.eqb_spec (length y) 0); [lia|reflexivity].
Qed.

(** ** The area estimator *)

Section AreaArrays.
Variables (s : MobiusStrip) (N : nat).
Hypothesis Hwf : well_formed s N.

Let HN : (2 <= N)%nat := proj1 Hwf.
Let HX : shape (self_X s) N N := proj1 (proj2 (proj2 (proj2 (proj2 Hwf)))).
Let HY : shape (self_Y s) N N :=
  proj1 (proj2 (proj2 (proj2 (proj2 (proj2 Hwf))))).
Let HZ : shape (self_Z s) N N :=
  proj2 (proj2 (proj2 (proj2 (proj2 (proj2 Hwf))))).

Lemma to_nat_n : Z.to_nat (self_n s) = N.
Proof. pose proof Hwf as (_ & E & _). rewrite E. apply Nat2Z.id. Qed.

Local Hint Resolve shape_gradient_u shape_gradient_v : shape.
Local Hint Extern 1 (2 <= N)%nat => exact HN : shape.
Local Hint Extern 1 (shape (self_X s) N N) => exact HX : shape.
Local Hint Extern 1 (shape (self_Y s) N N) => exact HY : shape.
Local Hint Extern 1 (shape (self_Z s) N N) => exact HZ : shape.

Lemma shape_dA : shape (dA_array s) N N.
Proof. unfold dA_array. cbv zeta. auto 20 with shape. Qed.

Lemma get2_dA (i j : nat) :
  (i < N)%nat -> (j < N)%nat -> get2 (dA_array s) i j = Spec.dA s i j.
Proof.
  intros Hi Hj. unfold dA_array. cbv zeta.
  repeat first
    [ rewrite (get2_zip2d _ _ _ N N) by (auto 20 with shape)
    | rewrite (get2_map2d _ _ N N) by (auto 20 with shape) ].
  rewrite !(get2_gradient_u _ N N) by (auto with shape).
  rewrite !(get2_gradient_v _ N N) by (auto with shape).
  unfold Spec.dA, Spec.Nx, Spec.Ny, Spec.Nz, Spec.Xu, Spec.Yu, Spec.Zu,
    Spec.Xv, Spec.Yv, Spec.Zv, Spec.along_u, Spec.along_v, Spec.du, Spec.dv.
  rewrite to_nat_n. reflexivity.
Qed.

Lemma column_dA (j : nat) :
  (j < N)%nat ->
  column j (dA_array s) = map (fun i => Spec.dA s i j) (seq 0 N).
Proof.
  intros Hj. destruct shape_dA as [HA HR].
  apply (nth_ext _ _ 0 0).
  - unfold column. rewrite !length_map, length_seq. exact HA.
  - intros i Hi. unfold column in *. rewrite length_map, HA in Hi.
    rewrite (nth_map_in _ []) by lia. rewrite nth_map_seq by lia.
    apply get2_dA; assumption.
Qed.

Lemma area_v_dA :
  map (fun j => integrate.simps1 (column j (dA_array s)) (self_v s))
      (seq 0 (ncols (dA_array s)))
  = map (Spec.area_v s) (seq 0 N).
Proof.
  rewrite (ncols_shape _ N N) by (try apply shape_dA; lia).
  apply map_ext_in. intros j Hj. apply in_seq in Hj.
  rewrite column_dA by lia. unfold Spec.area_v. rewrite to_nat_n. reflexivity.
Qed.

Lemma surface_area_runs : surface_area s = inr (Spec.total_area s, s).
Proof.
  pose proof Hwf as (_ & _ & Hu & Hv & _).
  destruct shape_dA as [HdA _].
  unfold surface_area.
  rewrite bind_attr.
  erewrite bind_lift by (apply (getitem_at 0 _ 1); lia).
  erewrite bind_lift by (apply (getitem_at 0 _ 0); lia).
  cbv zeta. rewrite bind_attr.
  erewrite bind_lift by (apply (getitem_at 0 _ 1); lia).
  erewrite bind_lift by (apply (getitem_at 0 _ 0); lia).
  cbv zeta.
  rewrite bind_attr. erewrite bind_lift by (apply (gradient_u_runs _ N N); auto; lia).
  rewrite bind_attr. erewrite bind_lift by (apply (gradient_u_runs _ N N); auto; lia).
  rewrite bind_attr. erewrite bind_lift by (apply (gradient_u_runs _ N N); auto; lia).
  rewrite bind_attr. erewrite bind_lift by (apply (gradient_v_runs _ N N); auto).
  rewrite bind_attr. erewrite bind_lift by (apply (gradient_v_runs _ N N); auto).
  rewrite bind_attr. erewrite bind_lift by (apply (gradient_v_runs _ N N); auto).
  fold (dA_array s).
  rewrite bind_attr.
  erewrite bind_lift by (apply simps_axis0_runs; lia).
  rewrite bind_attr.
  erewrite bind_lift
    by (apply simps_runs; rewrite area_v_dA, length_map, length_seq; lia).
  rewrite area_v_dA. unfold Spec.total_area. rewrite to_nat_n. reflexivity.
Qed.

End AreaArrays.

Lemma strip_well_formed (R0 w : R) (n : Z) :
  (2 <= n)%Z -> well_formed (strip_of R0 w n) (Z.to_nat n).
Proof.
  intros Hn. unfold well_formed. repeat split; try lia.
  - simpl. lia.
  - apply length_u.
  - apply length_v.
  - apply shape_X.
  - apply shape_X.
  - apply shape_Y.
  - apply shape_Y.
  - apply shape_Z.
  - apply shape_Z.
Qed.

(** Below two samples the first subscript [self.u[1]] is out of range. *)
Lemma surface_area_raises_below_two (R0 w : R) (n : Z) :
  (0 <= n < 2)%Z -> surface_area (strip_of R0 w n) = inl IndexError.
Proof.
  intros Hn. unfold surface_area. rewrite bind_attr.
  apply bind_lift_raises. apply (getitem_out_of_range 0 _ 1).
  rewrite length_u. lia.
Qed.

(** C3.  For every valid configuration construction succeeds and
    [surface_area()] returns, leaving the instance as it was, the number
    that the five steps give: the six tangent arrays by central differences
    in the interior and one-sided differences at the first and last row or
    column, divided by [du] or [dv]; their cross product, component by
    component; the area element [dA = sqrt(Nx^2 + Ny^2 + Nz^2)]; the
    integral of [dA] over [v] along each column; and the integral of these
    over [u] by the same rule. *)
Theorem surface_area_by_steps (R0 w : R) (n : Z) :
  valid R0 w n ->
  exists s, __init__ R0 w n = inr s /\
    surface_area s = inr (Spec.total_area s, s).
Proof.
  intros (_ & _ & Hn). exists (strip_of R0 w n).
  split; [apply init_accepts; lia|].
  apply (surface_area_runs _ (Z.to_nat n)). apply strip_well_formed. exact Hn.
Qed.

Lemma surface_area_by_steps_witness :
  valid 1 0.2 3 /\
  exists s, __init__ 1 0.2 3 = inr s /\
    surface_area s = inr (Spec.total_area s, s).
Proof.
  assert (H : valid 1 0.2 3) by (unfold valid; repeat split; try lra; lia).
  split; [exact H | exact (surface_area_by_steps 1 0.2 3 H)].
Defined.

(** ** The edge-length estimator *)

Lemma diff_length (a : list R) : length (np.diff a) = (length a - 1)%nat.
Proof. unfold np.diff. rewrite zipWith_length, length_skipn. lia. Qed.

Lemma nth_diff (a : list R) (k : nat) :
  (S k < length a)%nat -> nth k (np.diff a) 0 = nth (k + 1) a 0 - nth k a 0.
Proof.
  intros Hk. unfold np.diff.
  rewrite (nth_zipWith _ 0 0) by (rewrite ?length_skipn; lia).
  rewrite nth_skipn. replace (1 + k)%nat with (k + 1)%nat by lia. reflexivity.
Qed.

Lemma segments_of_row (x y z : list R) (N : nat) :
  length x = N -> length y = N -> length z = N ->
  map sqrt
    (zipWith Rplus
       (zipWith Rplus (map (fun t => t ^ 2) (np.diff x)) (map (fun t => t ^ 2) (np.diff y)))
       (map (fun t => t ^ 2) (np.diff z)))
  = map (fun j => sqrt ((nth (j + 1) x 0 - nth j x 0) ^ 2
                        + (nth (j + 1) y 0 - nth j y 0) ^ 2
                        + (nth (j + 1) z 0 - nth j z 0) ^ 2))
        (seq 0 (N - 1)).
Proof.
  intros Hx Hy Hz.
  assert (Hlen : forall a, length a = N ->
            length (map (fun t => t ^ 2) (np.diff a)) = (N - 1)%nat)
    by (intros a Ha; rewrite length_map, diff_length, Ha; reflexivity).
  apply (nth_ext _ _ 0 0).
  - rewrite !length_map, !zipWith_length, !Hlen, length_seq by assumption. lia.
  - intros j Hj.
    rewrite !length_map, !zipWith_length, !Hlen in Hj by assumption.
    assert (Hj' : (j < N - 1)%nat) by lia.
    rewrite (nth_map_in _ 0) by (rewrite !zipWith_length, !Hlen by assumption; lia).
    rewrite (nth_zipWith _ 0 0) by (rewrite ?zipWith_length, !Hlen by assumption; lia).
    rewrite (nth_zipWith _ 0 0) by (rewrite !Hlen by assumption; lia).
    rewrite !(nth_map_in _ 0) by (rewrite diff_length; lia).
    rewrite !nth_diff by lia.
    rewrite nth_map_seq by lia. reflexivity.
Qed.

Section EdgeRows.
Variables (s : MobiusStrip) (N : nat).
Hypothesis Hwf : well_formed s N.

Lemma edge_row_runs (v_idx : Z) (i : nat) (acc : R) :
  (i < N)%nat ->
  getitem [] (self_X s) v_idx = inr (nth i (self_X s) []) ->
  getitem [] (self_Y s) v_idx = inr (nth i (self_Y s) []) ->
  getitem [] (self_Z s) v_idx = inr (nth i (self_Z s) []) ->
  (X <- attr self_X ;;
   x_edge <- lift (getitem [] X v_idx) ;;
   Y <- attr self_Y ;;
   y_edge <- lift (getitem [] Y v_idx) ;;
   Z <- attr self_Z ;;
   z_edge <- lift (getitem [] Z v_idx) ;;
   let dx := np.diff x_edge in
   let dy := np.diff y_edge in
   let dz := np.diff z_edge in
   let ds := map sqrt
               (zipWith Rplus
                  (zipWith Rplus (map (fun t => t ^ 2) dx) (map (fun t => t ^ 2) dy))
                  (map (fun t => t ^ 2) dz)) in
   ret (acc + np.sum ds))%method s
  = inr (acc + Spec.polyline s i, s).
Proof.
  intros Hi EX EY EZ.
  pose proof Hwf as (_ & _ & _ & _ & [_ HX] & [_ HY] & [_ HZ]).
  rewrite bind_attr. erewrite bind_lift by exact EX.
  rewrite bind_attr. erewrite bind_lift by exact EY.
  rewrite bind_attr. erewrite bind_lift by exact EZ.
  cbv zeta. rewrite (segments_of_row _ _ _ N) by auto.
  unfold Spec.polyline, Spec.segment, get2.
  rewrite (to_nat_n s N Hwf). reflexivity.
Qed.

Lemma edge_length_runs : edge_length s = inr (Spec.edge_length s, s).
Proof.
  pose proof Hwf as (HN & _ & _ & _ & [HX _] & [HY _] & [HZ _]).
  unfold edge_length. cbn [for_each]. unfold bind at 1. unfold bind at 1.
  rewrite (edge_row_runs 0 0)
    by (try apply (getitem_at [] _ 0); lia).
  unfold bind at 1.
  rewrite (edge_row_runs (-1) (N - 1));
    [ | lia
      | rewrite getitem_last, HX by lia; reflexivity
      | rewrite getitem_last, HY by lia; reflexivity
      | rewrite getitem_last, HZ by lia; reflexivity ].
  unfold ret, ok, Spec.edge_length. rewrite (to_nat_n s N Hwf).
  do 2 f_equal. ring.
Qed.

End EdgeRows.

(** C4.  For every valid configuration construction succeeds and
    [edge_length()] returns, leaving the instance as it was, the sum over
    grid row [0] (where [v = -w/2]) and grid row [n-1] (where [v = +w/2]) of
    the lengths of the [n-1] segments joining consecutive points of the row
    in increasing [u]; no segment closes a row back to its first point. *)
Theorem edge_length_open_polylines (R0 w : R) (n : Z) :
  valid R0 w n ->
  exists s, __init__ R0 w n = inr s /\
    let N := Z.to_nat n in
    edge_length s = inr (Spec.polyline s 0 + Spec.polyline s (N - 1), s) /\
    (forall i, Spec.polyline s i
               = np.sum (map (fun j =>
                   sqrt ((get2 (self_X s) i (j + 1) - get2 (self_X s) i j) ^ 2
                         + (get2 (self_Y s) i (j + 1) - get2 (self_Y s) i j) ^ 2
                         + (get2 (self_Z s) i (j + 1) - get2 (self_Z s) i j) ^ 2))
                   (seq 0 (N - 1)))) /\
    (forall j, (j < N)%nat ->
       get2 (self_V s) 0 j = - w / 2 /\ get2 (self_V s) (N - 1) j = w / 2).
Proof.
  intros (_ & _ & Hn). exists (strip_of R0 w n).
  split; [apply init_accepts; lia|]. intros N.
  pose proof (strip_well_formed R0 w n Hn) as Hwf. fold N in Hwf.
  split; [|split].
  - rewrite (edge_length_runs _ N Hwf). unfold Spec.edge_length.
    rewrite (to_nat_n _ N Hwf). reflexivity.
  - intros i. unfold Spec.polyline. rewrite (to_nat_n _ N Hwf). reflexivity.
  - intros j Hj. unfold N in *. rewrite !V_at by lia.
    rewrite strip_v, linspace_samples_first, linspace_samples_last by lia.
    split; reflexivity.
Qed.

Lemma edge_length_open_polylines_witness :
  valid 1 0.2 4 /\
  exists s, __init__ 1 0.2 4 = inr s /\
    edge_length s = inr (Spec.polyline s 0 + Spec.polyline s 3, s) /\
    get2 (self_V s) 3 0 = 0.2 / 2.
Proof.
  assert (H : valid 1 0.2 4) by (unfold valid; repeat split; try lra; lia).
  split; [exact H|].
  destruct (edge_length_open_polylines 1 0.2 4 H) as (s & Hs & He & _ & HV).
  exists s. split; [exact Hs|]. split; [exact He|].
  apply (HV 0%nat). simpl; lia.
Defined.

(** ** The quadrature rule *)

Lemma sum_nonneg (l : list R) :
  (forall a, In a l -> 0 <= a) -> 0 <= np.sum l.
Proof.
  induction l as [|b l IH]; simpl; intros H; [lra|].
  assert (0 <= b) by (apply H; left; reflexivity).
  assert (0 <= np.sum l) by (apply IH; intros a Ha; apply H; right; exact Ha).
  lra.
Qed.

Lemma sum_ge_member (l : list R) (b : R) :
  (forall a, In a l -> 0 <= a) -> In b l -> b <= np.sum l.
Proof.
  induction l as [|c l IH]; simpl; intros H Hb; [contradiction|].
  assert (0 <= c) by (apply H; left; reflexivity).
  assert (Hl : forall a, In a l -> 0 <= a) by (intros a Ha; apply H; right; exact Ha).
  pose proof (sum_nonneg l Hl).
  destruct Hb as [->|Hb]; [lra|].
  specialize (IH Hl Hb). lra.
Qed.

Lemma in_range2 (start stop : Z) (k : nat) :
  (0 <= start)%Z -> In k (integrate.range2 start stop) ->
  (start <= Z.of_nat k < stop)%Z.
Proof.
  intros Hs Hk. unfold integrate.range2 in Hk.
  apply in_map_iff in Hk. destruct Hk as (i & <- & Hi).
  apply in_seq in Hi.
  assert (Z.of_nat i < (stop - start + 1) / 2)%Z by lia.
  assert (2 * ((stop - start + 1) / 2) <= stop - start + 1)%Z
    by (apply Z.mul_div_le; lia).
  lia.
Qed.

Lemma range2_empty (start stop : Z) :
  (stop <= start)%Z -> integrate.range2 start stop = [].
Proof.
  intros H. unfold integrate.range2.
  assert ((stop - start + 1) / 2 <= 0)%Z.
  { apply Z.lt_succ_r. apply Z.div_lt_upper_bound; lia. }
  replace (Z.to_nat ((stop - start + 1) / 2)) with 0%nat by lia. reflexivity.
Qed.

Lemma range2_first (stop : Z) :
  (1 <= stop)%Z -> In 0%nat (integrate.range2 0 stop).
Proof.
  intros H. unfold integrate.range2.
  apply in_map_iff. exists 0%nat. split; [reflexivity|].
  apply in_seq.
  assert (1 <= (stop - 0 + 1) / 2)%Z by (apply Z.div_le_lower_bound; lia).
  lia.
Qed.

(** On two samples the rule is the trapezoid. *)
Lemma simps1_two (y0 y1 x0 x1 : R) :
  integrate.simps1 [y0; y1] [x0; x1] = Spec.trapezoid2 y0 y1 x0 x1.
Proof.
  unfold integrate.simps1, integrate._basic_simps. simpl length.
  change (Nat.even 2) with true. cbv iota.
  rewrite !range2_empty by (simpl; lia).
  unfold Spec.trapezoid2. simpl. lra.
Qed.

(** On a uniform grid of positive step the rule has non-negative weights,
    and a positive weight on the first sample. *)
Section UniformGrid.
Variables (y x : list R) (h : R).
Hypothesis Hh : 0 < h.
Hypothesis HN : (2 <= length y)%nat.
Hypothesis Hx : length x = length y.
Hypothesis Hstep : forall k, (S k < length x)%nat -> nth (S k) x 0 - nth k x 0 = h.
Hypothesis Hy : forall k, 0 <= nth k y 0.

Lemma diff_uniform (k : nat) :
  (S k < length x)%nat -> nth k (np.diff x) 0 = h.
Proof.
  intros Hk. rewrite nth_diff by exact Hk.
  replace (k + 1)%nat with (S k) by lia. apply Hstep. exact Hk.
Qed.

Lemma simps_term_uniform (k : nat) :
  (k + 2 < length x)%nat ->
  integrate.simps_term y (np.diff x) k
  = h / 3 * (nth k y 0 + 4 * nth (k + 1) y 0 + nth (k + 2) y 0).
Proof.
  intros Hk. unfold integrate.simps_term.
  rewrite !diff_uniform by lia. cbv zeta. field. lra.
Qed.

Lemma simps_term_nonneg (k : nat) :
  (k + 2 < length x)%nat -> 0 <= integrate.simps_term y (np.diff x) k.
Proof.
  intros Hk. rewrite simps_term_uniform by exact Hk.
  pose proof (Hy k). pose proof (Hy (k + 1)). pose proof (Hy (k + 2)).
  apply Rmult_le_pos; lra.
Qed.

Lemma basic_simps_terms_nonneg (start stop : Z) (a : R) :
  (0 <= start)%Z -> (stop <= Z.of_nat (length x) - 2)%Z ->
  In a (map (integrate.simps_term y (np.diff x)) (integrate.range2 start stop)) ->
  0 <= a.
Proof.
  intros Hs Ht Ha. apply in_map_iff in Ha. destruct Ha as (k & <- & Hk).
  apply in_range2 in Hk; [|exact Hs]. apply simps_term_nonneg. lia.
Qed.

Lemma basic_simps_nonneg (start stop : Z) :
  (0 <= start)%Z -> (stop <= Z.of_nat (length x) - 2)%Z ->
  0 <= integrate._basic_simps y start stop x.
Proof.
  intros Hs Ht. unfold integrate._basic_simps. apply sum_nonneg.
  intros a. apply basic_simps_terms_nonneg; assumption.
Qed.

Lemma end_steps :
  nth 1 x 0 - nth 0 x 0 = h /\
  nth (length y - 1) x 0 - nth (length y - 2) x 0 = h.
Proof.
  split.
  - apply Hstep. lia.
  - replace (length y - 1)%nat with (S (length y - 2)) by lia.
    apply Hstep. lia.
Qed.

Lemma simps1_ge_first :
  h / 4 * nth 0 y 0 <= integrate.simps1 y x.
Proof.
  unfold integrate.simps1. destruct end_steps as [E0 E1].
  pose proof (Hy 0%nat) as Hy0.
  destruct (Nat.even (length y)) eqn:Ev.
  - rewrite E0, E1.
    pose proof (basic_simps_nonneg 0 (Z.of_nat (length y) - 3) ltac:(lia) ltac:(lia)).
    pose proof (basic_simps_nonneg 1 (Z.of_nat (length y) - 2) ltac:(lia) ltac:(lia)).
    pose proof (Hy 1%nat). pose proof (Hy (length y - 1)%nat).
    pose proof (Hy (length y - 2)%nat).
    assert (0 <= h * nth 1 y 0) by (apply Rmult_le_pos; lra).
    assert (0 <= h * nth 0 y 0) by (apply Rmult_le_pos; lra).
    assert (0 <= h * nth (length y - 1) y 0) by (apply Rmult_le_pos; lra).
    assert (0 <= h * nth (length y - 2) y 0) by (apply Rmult_le_pos; lra).
    lra.
  - assert (H3 : (3 <= length y)%nat).
    { destruct (Nat.eq_dec (length y) 2) as [E|E]; [|lia].
      rewrite E in Ev. discriminate. }
    unfold integrate._basic_simps.
    apply Rle_trans with (integrate.simps_term y (np.diff x) 0).
    + rewrite simps_term_uniform by lia. simpl.
      pose proof (Hy 1%nat). pose proof (Hy 2%nat).
      assert (0 <= h * nth 1 y 0) by (apply Rmult_le_pos; lra).
      assert (0 <= h * nth 2 y 0) by (apply Rmult_le_pos; lra).
      assert (0 <= h * nth 0 y 0) by (apply Rmult_le_pos; lra).
      lra.
    + apply sum_ge_member.
      * intros a. apply basic_simps_terms_nonneg; lia.
      * apply in_map. apply range2_first. lia.
Qed.

Lemma simps1_nonneg : 0 <= integrate.simps1 y x.
Proof.
  apply Rle_trans with (h / 4 * nth 0 y 0); [|apply simps1_ge_first].
  pose proof (Hy 0%nat). apply Rmult_le_pos; lra.
Qed.

Lemma simps1_pos : 0 < nth 0 y 0 -> 0 < integrate.simps1 y x.
Proof.
  intros H0. apply Rlt_le_trans with (h / 4 * nth 0 y 0); [|apply simps1_ge_first].
  apply Rmult_lt_0_compat; lra.
Qed.

End UniformGrid.

(** ** Sign of the two estimates *)

Lemma nth_samples_nonneg (f : nat -> R) (N k : nat) :
  (forall i, 0 <= f i) -> 0 <= nth k (map f (seq 0 N)) 0.
Proof.
  intros Hf. destruct (Nat.lt_ge_cases k N) as [Hk|Hk].
  - rewrite nth_map_seq by exact Hk. apply Hf.
  - rewrite nth_overflow by (rewrite length_map, length_seq; exact Hk). lra.
Qed.

Section ValidStrip.
Variables (R0 w : R) (n : Z).
Hypothesis Hvalid : valid R0 w n.
Let N := Z.to_nat n.
Let s := strip_of R0 w n.

Let Hn : (2 <= n)%Z := proj2 (proj2 Hvalid).
Let Hw : 0 < w := proj1 (proj2 Hvalid).

Lemma steps_positive : 0 < 2 * PI / INR (N - 1) /\ 0 < w / INR (N - 1).
Proof.
  assert (0 < INR (N - 1)) by (apply lt_0_INR; unfold N; lia).
  pose proof PI_RGT_0.
  split; apply Rdiv_lt_0_compat; lra.
Qed.

Lemma u_step (k : nat) :
  (S k < length (self_u s))%nat ->
  nth (S k) (self_u s) 0 - nth k (self_u s) 0 = 2 * PI / INR (N - 1).
Proof.
  unfold s. rewrite length_u. intros Hk.
  rewrite !u_at by lia. rewrite S_INR. fold N. ring.
Qed.

Lemma v_step (k : nat) :
  (S k < length (self_v s))%nat ->
  nth (S k) (self_v s) 0 - nth k (self_v s) 0 = w / INR (N - 1).
Proof.
  unfold s. rewrite length_v. intros Hk.
  rewrite !v_at by lia. rewrite S_INR. fold N. ring.
Qed.

Lemma dA_nonneg (i j : nat) : 0 <= Spec.dA s i j.
Proof. apply sqrt_pos. Qed.

Lemma area_v_nonneg (j : nat) : 0 <= Spec.area_v s j.
Proof.
  unfold Spec.area_v. change (Z.to_nat (self_n s)) with N.
  destruct steps_positive as [_ Hdv].
  apply (simps1_nonneg _ _ (w / INR (N - 1))).
  - exact Hdv.
  - rewrite length_map, length_seq. unfold N. lia.
  - rewrite length_map, length_seq. apply length_v.
  - apply v_step.
  - intros k. apply nth_samples_nonneg. intros i. apply dA_nonneg.
Qed.

Lemma area_v_pos : 0 < Spec.dA s 0 0 -> 0 < Spec.area_v s 0.
Proof.
  intros H0. unfold Spec.area_v. change (Z.to_nat (self_n s)) with N.
  destruct steps_positive as [_ Hdv].
  apply (simps1_pos _ _ (w / INR (N - 1))).
  - exact Hdv.
  - rewrite length_map, length_seq. unfold N. lia.
  - rewrite length_map, length_seq. apply length_v.
  - apply v_step.
  - intros k. apply nth_samples_nonneg. intros i. apply dA_nonneg.
  - rewrite nth_map_seq by (unfold N; lia). exact H0.
Qed.

Lemma total_area_nonneg : 0 <= Spec.total_area s.
Proof.
  unfold Spec.total_area. change (Z.to_nat (self_n s)) with N.
  destruct steps_positive as [Hdu _].
  apply (simps1_nonneg _ _ (2 * PI / INR (N - 1))).
  - exact Hdu.
  - rewrite length_map, length_seq. unfold N. lia.
  - rewrite length_map, length_seq. apply length_u.
  - apply u_step.
  - intros k. apply nth_samples_nonneg. apply area_v_nonneg.
Qed.

Lemma total_area_pos : 0 < Spec.dA s 0 0 -> 0 < Spec.total_area s.
Proof.
  intros H0. unfold Spec.total_area. change (Z.to_nat (self_n s)) with N.
  destruct steps_positive as [Hdu _].
  apply (simps1_pos _ _ (2 * PI / INR (N - 1))).
  - exact Hdu.
  - rewrite length_map, length_seq. unfold N. lia.
  - rewrite length_map, length_seq. apply length_u.
  - apply u_step.
  - intros k. apply nth_samples_nonneg. apply area_v_nonneg.
  - rewrite nth_map_seq by (unfold N; lia). apply area_v_pos. exact H0.
Qed.

End ValidStrip.

Lemma simps1_two_samples (y x : list R) :
  length y = 2%nat -> length x = 2%nat ->
  integrate.simps1 y x
  = Spec.trapezoid2 (nth 0 y 0) (nth 1 y 0) (nth 0 x 0) (nth 1 x 0).
Proof.
  intros Hy Hx.
  destruct y as [|y0 [|y1 [|? ?]]]; try discriminate Hy.
  destruct x as [|x0 [|x1 [|? ?]]]; try discriminate Hx.
  apply simps1_two.
Qed.

(** On an instance with two samples per axis both integrations are
    trapezoids. *)
Lemma two_sample_total_area (s : MobiusStrip) :
  well_formed s 2 ->
  Spec.total_area s
  = Spec.trapezoid2
      (Spec.trapezoid2 (Spec.dA s 0 0) (Spec.dA s 1 0)
         (nth 0 (self_v s) 0) (nth 1 (self_v s) 0))
      (Spec.trapezoid2 (Spec.dA s 0 1) (Spec.dA s 1 1)
         (nth 0 (self_v s) 0) (nth 1 (self_v s) 0))
      (nth 0 (self_u s) 0) (nth 1 (self_u s) 0).
Proof.
  intros Hwf. pose proof Hwf as (_ & _ & Hu & Hv & _).
  unfold Spec.total_area, Spec.area_v.
  rewrite (to_nat_n s 2 Hwf). cbn [seq map].
  rewrite simps1_two_samples by (try reflexivity; exact Hu).
  cbn [nth].
  rewrite !simps1_two_samples by (try reflexivity; exact Hv).
  reflexivity.
Qed.

(** *** The coarsest grid, [n = 2] *)

Section CoarsestGrid.
Variables (R0 w : R).
Let s := strip_of R0 w 2.

Lemma coarse_Y (i j : nat) :
  (i < 2)%nat -> (j < 2)%nat -> get2 (self_Y s) i j = 0.
Proof.
  intros Hi Hj. destruct j as [|[|j]]; [| |lia].
  - apply (first_column R0 w 2 i); simpl; lia.
  - apply (last_column R0 w 2 i); simpl; lia.
Qed.

Lemma coarse_Z (i j : nat) :
  (i < 2)%nat -> (j < 2)%nat -> get2 (self_Z s) i j = 0.
Proof.
  intros Hi Hj. destruct j as [|[|j]]; [| |lia].
  - apply (first_column R0 w 2 i); simpl; lia.
  - apply (last_column R0 w 2 i); simpl; lia.
Qed.

End CoarsestGrid.

Lemma coarse_spacings (R0 w : R) :
  Spec.du (strip_of R0 w 2) = 2 * PI /\ Spec.dv (strip_of R0 w 2) = w.
Proof.
  unfold Spec.du, Spec.dv. rewrite strip_u, strip_v.
  rewrite !linspace_samples_first by (simpl; lia).
  pose proof (linspace_samples_last 0 (2 * PI) 2 ltac:(lia)) as Eu.
  pose proof (linspace_samples_last (- w / 2) (w / 2) 2 ltac:(lia)) as Ev.
  change (2 - 1)%nat with 1%nat in Eu, Ev. change (Z.to_nat 2) with 2%nat.
  rewrite Eu, Ev. split; field.
Qed.

(** C6.  The quadrature does not refuse two samples: on any two samples
    it returns their trapezoid.  Hence on every instance with two samples
    per axis and non-zero spacings, whatever its point arrays hold,
    [surface_area()] raises nothing and returns the trapezoid over [u] of
    the trapezoids over [v] of [dA]; the instance constructed with [n = 2],
    [R > 0] and [w > 0] is one of these; and for every [n >= 2]
    [surface_area()] returns a value. *)
Theorem surface_area_total (R0 w : R) :
  0 < R0 -> 0 < w ->
  (forall y0 y1 x0 x1,
     integrate.simps [y0; y1] [x0; x1] = inr (Spec.trapezoid2 y0 y1 x0 x1)) /\
  (forall s, well_formed s 2 -> Spec.du s <> 0 -> Spec.dv s <> 0 ->
     let column_integral j :=
       Spec.trapezoid2 (Spec.dA s 0 j) (Spec.dA s 1 j)
         (nth 0 (self_v s) 0) (nth 1 (self_v s) 0) in
     surface_area s
     = inr (Spec.trapezoid2 (column_integral 0%nat) (column_integral 1%nat)
              (nth 0 (self_u s) 0) (nth 1 (self_u s) 0), s)) /\
  (exists s, __init__ R0 w 2 = inr s /\
     well_formed s 2 /\ Spec.du s <> 0 /\ Spec.dv s <> 0 /\
     let column_integral j :=
       Spec.trapezoid2 (Spec.dA s 0 j) (Spec.dA s 1 j)
         (nth 0 (self_v s) 0) (nth 1 (self_v s) 0) in
     surface_area s
     = inr (Spec.trapezoid2 (column_integral 0%nat) (column_integral 1%nat)
              (nth 0 (self_u s) 0) (nth 1 (self_u s) 0), s)) /\
  (forall n, (2 <= n)%Z ->
     exists s a, __init__ R0 w n = inr s /\ surface_area s = inr (a, s)).
Proof.
  intros HR Hw. split; [|split; [|split]].
  - intros y0 y1 x0 x1. rewrite simps_runs by (simpl; lia).
    rewrite simps1_two. reflexivity.
  - intros s Hwf _ _. cbv zeta.
    rewrite (surface_area_runs _ 2 Hwf), (two_sample_total_area s Hwf).
    reflexivity.
  - exists (strip_of R0 w 2). split; [apply init_accepts; lia|].
    pose proof (strip_well_formed R0 w 2 ltac:(lia)) as Hwf.
    split; [exact Hwf|].
    destruct (coarse_spacings R0 w) as [Eu Ev]. rewrite Eu, Ev.
    pose proof PI_RGT_0. split; [lra|]. split; [lra|]. cbv zeta.
    rewrite (surface_area_runs _ 2 Hwf), (two_sample_total_area _ Hwf).
    reflexivity.
  - intros n Hn. exists (strip_of R0 w n), (Spec.total_area (strip_of R0 w n)).
    split; [apply init_accepts; lia|].
    apply (surface_area_runs _ (Z.to_nat n)). apply strip_well_formed. exact Hn.
Qed.

(** A flat unit square on two samples per axis, [X = u], [Y = v], [Z = 0]:
    the rule returns its area, [1]. *)
Lemma surface_area_total_witness :
  0 < 1 /\ 0 < 0.2 /\
  (exists s a, __init__ 1 0.2 2 = inr s /\ surface_area s = inr (a, s)) /\
  let s := mkMobiusStrip 1 1 2 [0; 1] [0; 1]
             [[0; 1]; [0; 1]] [[0; 0]; [1; 1]]
             [[0; 1]; [0; 1]] [[0; 0]; [1; 1]] [[0; 0]; [0; 0]] in
  surface_area s = inr (1, s).
Proof.
  split; [lra|]. split; [lra|].
  destruct (surface_area_total 1 0.2 ltac:(lra) ltac:(lra)) as (_ & Hrule & _ & Hall).
  split; [exact (Hall 2%Z ltac:(lia))|].
  intros s.
  assert (Hwf : well_formed s 2).
  { unfold well_formed, shape. simpl.
    repeat split; try lia; intros [|[|i]] Hi; simpl; lia. }
  assert (Hdu : Spec.du s <> 0) by (unfold Spec.du; simpl; lra).
  assert (Hdv : Spec.dv s <> 0) by (unfold Spec.dv; simpl; lra).
  rewrite (Hrule s Hwf Hdu Hdv).
  assert (HdA : forall i j, (i < 2)%nat -> (j < 2)%nat -> Spec.dA s i j = 1).
  { intros i j Hi Hj. rewrite <- sqrt_1. unfold Spec.dA. f_equal.
    unfold Spec.Nx, Spec.Ny, Spec.Nz, Spec.Xu, Spec.Yu, Spec.Zu,
      Spec.Xv, Spec.Yv, Spec.Zv, Spec.along_u, Spec.along_v, Spec.difference,
      Spec.du, Spec.dv, get2.
    destruct i as [|[|i]]; [| |lia]; destruct j as [|[|j]]; try lia;
      simpl; field. }
  rewrite !HdA by lia. unfold Spec.trapezoid2. simpl. do 2 f_equal. field.
Defined.

(** *** Finer grids, [n >= 3] *)

Section FinerGrid.
Variables (R0 w : R) (n : Z).
Hypothesis Hvalid : valid R0 w n.
Hypothesis Hn3 : (3 <= n)%Z.
Let N := Z.to_nat n.
Let s := strip_of R0 w n.

Let Hw : 0 < w := proj1 (proj2 Hvalid).

Lemma first_half_angle : 0 < sin (nth 1 (self_u s) 0 / 2).
Proof.
  unfold s. rewrite u_at by lia. fold N.
  assert (H2 : 2 <= INR (N - 1)).
  { change 2 with (INR 2). apply le_INR. unfold N. lia. }
  pose proof PI_RGT_0 as Hpi.
  replace (INR 1 * (2 * PI / INR (N - 1)) / 2) with (PI / INR (N - 1))
    by (simpl; field; lra).
  apply sin_gt_0.
  - apply Rdiv_lt_0_compat; lra.
  - apply Rmult_lt_reg_r with (INR (N - 1)); [lra|].
    unfold Rdiv. rewrite Rmult_assoc, Rinv_l by lra. nra.
Qed.

(** The second point of the first row lies off the plane [z = 0]. *)
Lemma Z_row0_col1 : get2 (self_Z s) 0 1 < 0.
Proof.
  unfold s. rewrite Z_at, V_at, U_at by lia.
  rewrite strip_v, linspace_samples_first by lia.
  pose proof first_half_angle as H. unfold s in H.
  assert (0 < w / 2 * sin (nth 1 (self_u (strip_of R0 w n)) 0 / 2))
    by (apply Rmult_lt_0_compat; lra).
  lra.
Qed.

Lemma Z_row0_col0 : get2 (self_Z s) 0 0 = 0.
Proof. apply (first_column R0 w n 0); lia. Qed.

Lemma finer_dA_pos : 0 < Spec.dA s 0 0.
Proof.
  assert (Hn : (2 <= n)%Z) by lia.
  destruct (steps_positive R0 w n Hvalid) as [Hdu Hdv]. fold N in Hdu, Hdv.
  assert (Edu : Spec.du s = 2 * PI / INR (N - 1)).
  { unfold Spec.du. apply (u_step R0 w n Hvalid 0). unfold s. rewrite length_u. lia. }
  assert (Edv : Spec.dv s = w / INR (N - 1)).
  { unfold Spec.dv. apply (v_step R0 w n Hvalid 0). unfold s. rewrite length_v. lia. }
  assert (EXv : Spec.Xv s 0 0 = 1).
  { unfold Spec.Xv, Spec.along_v, Spec.difference. cbn [Nat.eqb].
    destruct (first_column R0 w n 0 Hn ltac:(lia)) as (E0 & _ & _).
    destruct (first_column R0 w n 1 Hn ltac:(lia)) as (E1 & _ & _).
    fold s in E0, E1. rewrite E0, E1.
    replace (R0 + nth 1 (self_v s) 0 - (R0 + nth 0 (self_v s) 0))
      with (Spec.dv s) by (unfold Spec.dv; ring).
    field. rewrite Edv. lra. }
  assert (EZv : Spec.Zv s 0 0 = 0).
  { unfold Spec.Zv, Spec.along_v, Spec.difference. cbn [Nat.eqb].
    destruct (first_column R0 w n 0 Hn ltac:(lia)) as (_ & _ & E0).
    destruct (first_column R0 w n 1 Hn ltac:(lia)) as (_ & _ & E1).
    fold s in E0, E1. rewrite E0, E1.
    unfold Rdiv. ring. }
  assert (EZu : Spec.Zu s 0 0 < 0).
  { unfold Spec.Zu, Spec.along_u, Spec.difference. cbn [Nat.eqb].
    rewrite Z_row0_col0, Edu. pose proof Z_row0_col1 as H.
    assert (0 < - get2 (self_Z s) 0 1 / (2 * PI / INR (N - 1)))
      by (apply Rdiv_lt_0_compat; lra).
    unfold Rdiv in *. lra. }
  unfold Spec.dA. apply sqrt_lt_R0.
  assert (ENy : Spec.Ny s 0 0 = Spec.Zu s 0 0)
    by (unfold Spec.Ny; rewrite EXv, EZv; ring).
  rewrite ENy.
  pose proof (pow2_ge_0 (Spec.Nx s 0 0)). pose proof (pow2_ge_0 (Spec.Nz s 0 0)).
  assert (0 < Spec.Zu s 0 0 ^ 2) by nra.
  lra.
Qed.

Lemma finer_segment_pos : 0 < Spec.segment s 0 0.
Proof.
  unfold Spec.segment. apply sqrt_lt_R0. cbn [Nat.add].
  rewrite Z_row0_col0. pose proof Z_row0_col1 as H.
  pose proof (pow2_ge_0 (get2 (self_X s) 0 1 - get2 (self_X s) 0 0)).
  pose proof (pow2_ge_0 (get2 (self_Y s) 0 1 - get2 (self_Y s) 0 0)).
  assert (0 < (get2 (self_Z s) 0 1 - 0) ^ 2) by nra.
  lra.
Qed.

End FinerGrid.

Lemma coarse_segment_pos (R0 w : R) :
  0 < w -> 0 < Spec.segment (strip_of R0 w 2) 0 0.
Proof.
  intros Hw. unfold Spec.segment. apply sqrt_lt_R0. cbn [Nat.add].
  destruct (first_column R0 w 2 0 ltac:(lia) ltac:(simpl; lia)) as (EX0 & _ & _).
  destruct (last_column R0 w 2 0 ltac:(lia) ltac:(simpl; lia)) as (EX1 & _ & _).
  change (Z.to_nat 2 - 1)%nat with 1%nat in EX1.
  rewrite EX0, EX1.
  rewrite strip_v, linspace_samples_first by (simpl; lia).
  pose proof (pow2_ge_0 (get2 (self_Y (strip_of R0 w 2)) 0 1
                         - get2 (self_Y (strip_of R0 w 2)) 0 0)).
  pose proof (pow2_ge_0 (get2 (self_Z (strip_of R0 w 2)) 0 1
                         - get2 (self_Z (strip_of R0 w 2)) 0 0)).
  assert (0 < (R0 - - w / 2 - (R0 + - w / 2)) ^ 2) by nra.
  lra.
Qed.

Lemma polyline_nonneg (s : MobiusStrip) (i : nat) : 0 <= Spec.polyline s i.
Proof.
  unfold Spec.polyline. apply sum_nonneg. intros a Ha.
  apply in_map_iff in Ha. destruct Ha as (j & <- & _). apply sqrt_pos.
Qed.

Lemma polyline_ge_first (s : MobiusStrip) (i : nat) :
  (2 <= Z.to_nat (self_n s))%nat -> Spec.segment s i 0 <= Spec.polyline s i.
Proof.
  intros Hn. unfold Spec.polyline. apply sum_ge_member.
  - intros a Ha. apply in_map_iff in Ha. destruct Ha as (j & <- & _). apply sqrt_pos.
  - apply in_map. apply in_seq. lia.
Qed.

Lemma edge_length_pos (R0 w : R) (n : Z) :
  valid R0 w n -> 0 < Spec.edge_length (strip_of R0 w n).
Proof.
  intros Hvalid. pose proof Hvalid as (_ & Hw & Hn).
  unfold Spec.edge_length.
  pose proof (polyline_nonneg (strip_of R0 w n)
                (Z.to_nat (self_n (strip_of R0 w n)) - 1)).
  pose proof (polyline_ge_first (strip_of R0 w n) 0 ltac:(simpl; lia)).
  assert (0 < Spec.segment (strip_of R0 w n) 0 0).
  { destruct (Z.eq_dec n 2) as [->|Hne].
    - apply coarse_segment_pos. exact Hw.
    - apply finer_segment_pos; [exact Hvalid | lia]. }
  lra.
Qed.

(** X12.  For every valid configuration construction succeeds,
    [edge_length()] returns a strictly positive value, and
    [surface_area()] returns a non-negative value, strictly positive as
    soon as [n >= 3]. *)
Theorem estimates_sign (R0 w : R) (n : Z) :
  valid R0 w n ->
  exists s a l, __init__ R0 w n = inr s /\
    surface_area s = inr (a, s) /\ edge_length s = inr (l, s) /\
    0 <= a /\ ((3 <= n)%Z -> 0 < a) /\ 0 < l.
Proof.
  intros Hvalid. pose proof Hvalid as (_ & _ & Hn).
  pose proof (strip_well_formed R0 w n Hn) as Hwf.
  exists (strip_of R0 w n), (Spec.total_area (strip_of R0 w n)),
    (Spec.edge_length (strip_of R0 w n)).
  split; [apply init_accepts; lia|].
  split; [apply (surface_area_runs _ _ Hwf)|].
  split; [apply (edge_length_runs _ _ Hwf)|].
  split; [apply total_area_nonneg; exact Hvalid|].
  split; [|apply edge_length_pos; exact Hvalid].
  intros Hn3. apply total_area_pos; [exact Hvalid|].
  apply finer_dA_pos; assumption.
Qed.

Lemma estimates_sign_witness :
  valid 1 0.2 3 /\
  exists s a l, __init__ 1 0.2 3 = inr s /\
    surface_area s = inr (a, s) /\ edge_length s = inr (l, s) /\
    0 < a /\ 0 < l.
Proof.
  assert (H : valid 1 0.2 3) by (unfold valid; repeat split; try lra; lia).
  split; [exact H|].
  destruct (estimates_sign 1 0.2 3 H) as (s & a & l & Hs & Ha & Hl & _ & Hpos & Hlpos).
  exists s, a, l. repeat split; try assumption. apply Hpos. lia.
Defined.

(** ** Frame: the queries do not write *)

Lemma read_only_ret {A} (a : A) : read_only (ret a).
Proof. intros s b s' [= _ <-]. reflexivity. Qed.

Lemma read_only_attr {A} (field : MobiusStrip -> A) : read_only (attr field).
Proof. intros s b s' [= _ <-]. reflexivity. Qed.

Lemma read_only_lift {A} (c : result A) : read_only (lift c).
Proof.
  intros s b s'. unfold lift. destruct c; [discriminate|].
  intros [= _ <-]. reflexivity.
Qed.

Lemma read_only_bind {A B} (c : M A) (k : A -> M B) :
  read_only c -> (forall a, read_only (k a)) -> read_only (bind c k).
Proof.
  intros Hc Hk s b s'. unfold bind.
  destruct (c s) as [e|[a s1]] eqn:E; [discriminate|].
  intros H. apply Hc in E. subst s1. exact (Hk a s b s' H).
Qed.

Lemma read_only_for_each {A B} (l : list A) (body : A -> B -> M B) (acc : B) :
  (forall a b, read_only (body a b)) -> read_only (for_each l body acc).
Proof.
  intros Hbody. revert acc. induction l as [|a l IH]; intros acc; simpl.
  - apply read_only_ret.
  - apply read_only_bind; [apply Hbody | exact IH].
Qed.

Ltac read_only :=
  repeat first
    [ apply read_only_ret
    | apply read_only_attr
    | apply read_only_lift
    | apply read_only_for_each; intros
    | apply read_only_bind; [|intros]
    | progress cbv zeta ].

Lemma surface_area_read_only : read_only surface_area.
Proof. unfold surface_area. read_only. Qed.

Lemma edge_length_read_only : read_only edge_length.
Proof. unfold edge_length. read_only. Qed.

(** C8.  [surface_area()] and [edge_length()] write nothing: in whatever
    state [s] the instance is, a call that returns hands back [s] itself,
    so that all ten fields are as before, and a further call of either
    query, made on what the first handed back, returns what it returns on
    [s]; in particular the same query returns the same value again. *)
Theorem queries_have_no_side_effect (s : MobiusStrip) :
  (forall a s', surface_area s = inr (a, s') ->
     s' = s /\ surface_area s' = inr (a, s') /\ edge_length s' = edge_length s) /\
  (forall l s', edge_length s = inr (l, s') ->
     s' = s /\ edge_length s' = inr (l, s') /\ surface_area s' = surface_area s).
Proof.
  split.
  - intros a s' H. pose proof (surface_area_read_only s a s' H) as ->.
    repeat split. exact H.
  - intros l s' H. pose proof (edge_length_read_only s l s' H) as ->.
    repeat split. exact H.
Qed.

Lemma queries_have_no_side_effect_witness :
  exists s a l, __init__ 1 0.2 3 = inr s /\
    surface_area s = inr (a, s) /\ edge_length s = inr (l, s) /\
    (forall s', surface_area s = inr (a, s') ->
       s' = s /\ surface_area s' = inr (a, s') /\ edge_length s' = edge_length s) /\
    (forall s', edge_length s = inr (l, s') ->
       s' = s /\ edge_length s' = inr (l, s') /\ surface_area s' = surface_area s).
Proof.
  pose proof (strip_well_formed 1 0.2 3 ltac:(lia)) as Hwf.
  exists (strip_of 1 0.2 3), (Spec.total_area (strip_of 1 0.2 3)),
    (Spec.edge_length (strip_of 1 0.2 3)).
  split; [apply init_accepts; lia|].
  split; [apply (surface_area_runs _ _ Hwf)|].
  split; [apply (edge_length_runs _ _ Hwf)|].
  split.
  - intros s'. apply (proj1 (queries_have_no_side_effect (strip_of 1 0.2 3))).
  - intros s'. apply (proj2 (queries_have_no_side_effect (strip_of 1 0.2 3))).
Defined.

(** ** Construction and its checks *)

(** C1, as stated, fails: the three degenerate configurations of the
    specification ([n = 1], [R = 0], [w = -1]) are all accepted, and the
    grid and the point arrays are built. *)
Lemma degenerate_configurations_accepted :
  (exists s, __init__ 1 0.2 1 = inr s /\ shape (self_X s) 1 1) /\
  (exists s, __init__ 0 0.2 3 = inr s /\ shape (self_X s) 3 3) /\
  (exists s, __init__ 1 (-1) 3 = inr s /\ shape (self_X s) 3 3) /\
  ~ (forall R0 w n, R0 <= 0 \/ w <= 0 \/ (n < 2)%Z ->
       exists e, __init__ R0 w n = inl e).
Proof.
  split; [|split; [|split]].
  - exists (strip_of 1 0.2 1). split; [apply init_accepts; lia|].
    apply (shape_X 1 0.2 1).
  - exists (strip_of 0 0.2 3). split; [apply init_accepts; lia|].
    apply (shape_X 0 0.2 3).
  - exists (strip_of 1 (-1) 3). split; [apply init_accepts; lia|].
    apply (shape_X 1 (-1) 3).
  - intros H. destruct (H 0 0.2 3%Z ltac:(left; lra)) as [e He].
    rewrite init_accepts in He by lia. discriminate He.
Qed.

(** C1, as the code has it.  Construction checks neither [R] nor [w] and
    rejects [n] only when it is negative, by the [ValueError] of the first
    grid vector, before anything is built; otherwise it succeeds, whatever
    [R] and [w] are and also for [n = 0] and [n = 1], and yields the
    instance with the three parameters stored, [u] and [v] of [n] samples
    and [U], [V], [X], [Y], [Z] of [n] by [n] entries. *)
Theorem construction_checks_only_sample_count (R0 w : R) (n : Z) :
  __init__ R0 w n
  = (if (n <? 0)%Z then inl ValueError else inr (strip_of R0 w n)) /\
  let s := strip_of R0 w n in
  let N := Z.to_nat n in
  self_R s = R0 /\ self_w s = w /\ self_n s = n /\
  length (self_u s) = N /\ length (self_v s) = N /\
  shape (self_U s) N N /\ shape (self_V s) N N /\
  shape (self_X s) N N /\ shape (self_Y s) N N /\ shape (self_Z s) N N.
Proof.
  split.
  - destruct (Z.ltb_spec n 0).
    + apply init_rejects. assumption.
    + apply init_accepts. assumption.
  - cbv zeta. repeat split;
      first [ apply length_u | apply length_v | apply shape_U | apply shape_V
            | apply shape_X | apply shape_Y | apply shape_Z ].
Qed.

(** * Further properties of the class *)

(** ** Grids too small for the queries *)

(** X1.  An instance built with fewer than two samples per axis ([n = 0]
    or [n = 1]) exists, but [surface_area()] raises [IndexError] on it: the
    spacing [self.u[1] - self.u[0]] has no second sample to read. *)
Theorem surface_area_needs_two_samples (R0 w : R) (n : Z) :
  (0 <= n < 2)%Z ->
  exists s, __init__ R0 w n = inr s /\ surface_area s = inl IndexError.
Proof.
  intros Hn. exists (strip_of R0 w n).
  split; [apply init_accepts; lia|].
  apply surface_area_raises_below_two. exact Hn.
Qed.

Lemma surface_area_needs_two_samples_witness :
  (0 <= 1 < 2)%Z /\
  exists s, __init__ 1 0.2 1 = inr s /\ surface_area s = inl IndexError.
Proof.
  split; [lia|]. apply (surface_area_needs_two_samples 1 0.2 1). lia.
Defined.

Lemma single_row (A : list (list R)) :
  shape A 1 1 -> exists a, A = [[a]].
Proof.
  intros [HA HR]. destruct A as [|r [|? ?]]; try discriminate HA.
  specialize (HR 0%nat ltac:(lia)). simpl in HR.
  destruct r as [|a [|? ?]]; try discriminate HR. exists a. reflexivity.
Qed.

Lemma no_row (A : list (list R)) : shape A 0 0 -> A = [].
Proof. intros [HA _]. destruct A; [reflexivity | discriminate HA]. Qed.

(** X2.  [edge_length()] on the smallest grids: with [n = 1] both
    boundary rows are the single point of the grid, there is no segment,
    and the result is [0]; with [n = 0] there is no row to take and the
    call raises [IndexError]. *)
Theorem edge_length_on_small_grids (R0 w : R) :
  (exists s, __init__ R0 w 1 = inr s /\ edge_length s = inr (0, s)) /\
  (exists s, __init__ R0 w 0 = inr s /\ edge_length s = inl IndexError).
Proof.
  split.
  - exists (strip_of R0 w 1). split; [apply init_accepts; lia|].
    destruct (single_row _ (shape_X R0 w 1)) as [x HX].
    destruct (single_row _ (shape_Y R0 w 1)) as [y HY].
    destruct (single_row _ (shape_Z R0 w 1)) as [z HZ].
    unfold edge_length. cbn [for_each]. unfold bind at 1. unfold bind at 1.
    rewrite bind_attr. rewrite (bind_lift _ [x]) by (rewrite HX; reflexivity).
    rewrite bind_attr. rewrite (bind_lift _ [y]) by (rewrite HY; reflexivity).
    rewrite bind_attr. rewrite (bind_lift _ [z]) by (rewrite HZ; reflexivity).
    cbv zeta. unfold ret at 1, ok at 1. cbv iota beta. unfold bind at 1.
    rewrite bind_attr. rewrite (bind_lift _ [x]) by (rewrite HX; reflexivity).
    rewrite bind_attr. rewrite (bind_lift _ [y]) by (rewrite HY; reflexivity).
    rewrite bind_attr. rewrite (bind_lift _ [z]) by (rewrite HZ; reflexivity).
    cbv zeta. unfold ret, ok. cbn [np.diff skipn zipWith map np.sum fold_right].
    do 2 f_equal. ring.
  - exists (strip_of R0 w 0). split; [apply init_accepts; lia|].
    pose proof (no_row _ (shape_X R0 w 0)) as HX.
    unfold edge_length. cbn [for_each]. unfold bind at 1. unfold bind at 1.
    rewrite bind_attr. rewrite HX. reflexivity.
Qed.

(** ** The two-point grid *)

Lemma coarse_segment (R0 w : R) (i : nat) :
  (i < 2)%nat ->
  Spec.segment (strip_of R0 w 2) i 0 = Rabs w.
Proof.
  intros Hi. unfold Spec.segment. cbn [Nat.add].
  rewrite !coarse_Y, !coarse_Z by lia.
  destruct (first_column R0 w 2 i ltac:(lia) ltac:(simpl; lia)) as (EX0 & _ & _).
  destruct (last_column R0 w 2 i ltac:(lia) ltac:(simpl; lia)) as (EX1 & _ & _).
  change (Z.to_nat 2 - 1)%nat with 1%nat in EX1. rewrite EX0, EX1.
  assert (Ev : nth i (self_v (strip_of R0 w 2)) 0 = - w / 2
               \/ nth i (self_v (strip_of R0 w 2)) 0 = w / 2).
  { destruct i as [|[|i]]; [left|right|lia].
    - rewrite strip_v. apply linspace_samples_first. simpl; lia.
    - rewrite strip_v. apply (linspace_samples_last _ _ 2). lia. }
  destruct Ev as [-> | ->].
  - replace ((R0 - - w / 2 - (R0 + - w / 2)) ^ 2 + (0 - 0) ^ 2 + (0 - 0) ^ 2)
      with (Rsqr w) by (unfold Rsqr; field).
    apply sqrt_Rsqr_abs.
  - replace ((R0 - w / 2 - (R0 + w / 2)) ^ 2 + (0 - 0) ^ 2 + (0 - 0) ^ 2)
      with (Rsqr w) by (unfold Rsqr; field).
    apply sqrt_Rsqr_abs.
Qed.

(** X3.  On the two-point grid [n = 2], whatever [R] and [w] are, both
    columns lie on the seam ([u = 0] and [u = 2*PI]): every row is the
    single straight segment from [(R + v, 0, 0)] to [(R - v, 0, 0)], so
    [edge_length()] returns exactly [2 * |w|]. *)
Theorem two_point_grid_edge_length (R0 w : R) :
  exists s, __init__ R0 w 2 = inr s /\
    edge_length s = inr (2 * Rabs w, s).
Proof.
  exists (strip_of R0 w 2). split; [apply init_accepts; lia|].
  pose proof (strip_well_formed R0 w 2 ltac:(lia)) as Hwf.
  rewrite (edge_length_runs _ _ Hwf). unfold Spec.edge_length, Spec.polyline.
  change (Z.to_nat (self_n (strip_of R0 w 2)) - 1)%nat with 1%nat.
  cbn [seq map np.sum fold_right].
  rewrite !coarse_segment by lia. do 2 f_equal. ring.
Qed.

(** ** The half-turn symmetry of the point grid *)

Lemma u_reflect (R0 w : R) (n : Z) (j : nat) :
  (2 <= n)%Z -> (j < Z.to_nat n)%nat ->
  nth (Z.to_nat n - 1 - j) (self_u (strip_of R0 w n)) 0
  = 2 * PI - nth j (self_u (strip_of R0 w n)) 0.
Proof.
  intros Hn Hj. rewrite !u_at by lia.
  rewrite minus_INR by lia.
  assert (INR (Z.to_nat n - 1) <> 0) by (apply not_0_INR; lia).
  field. assumption.
Qed.

Lemma cos_full_turn_minus (x : R) : cos (2 * PI - x) = cos x.
Proof. rewrite cos_minus, cos_2PI, sin_2PI. ring. Qed.

Lemma sin_full_turn_minus (x : R) : sin (2 * PI - x) = - sin x.
Proof. rewrite sin_minus, cos_2PI, sin_2PI. ring. Qed.

Lemma cos_half_of_reflected (x : R) : cos ((2 * PI - x) / 2) = - cos (x / 2).
Proof.
  replace ((2 * PI - x) / 2) with (PI - x / 2) by field.
  rewrite cos_minus, cos_PI, sin_PI. ring.
Qed.

Lemma sin_half_of_reflected (x : R) : sin ((2 * PI - x) / 2) = sin (x / 2).
Proof.
  replace ((2 * PI - x) / 2) with (PI - x / 2) by field.
  apply sin_PI_x.
Qed.

Lemma half_turn_point (R0 w : R) (n : Z) (i j : nat) :
  (2 <= n)%Z -> (i < Z.to_nat n)%nat -> (j < Z.to_nat n)%nat ->
  let s := strip_of R0 w n in
  let N := Z.to_nat n in
  get2 (self_X s) (N - 1 - i) (N - 1 - j) = get2 (self_X s) i j /\
  get2 (self_Y s) (N - 1 - i) (N - 1 - j) = - get2 (self_Y s) i j /\
  get2 (self_Z s) (N - 1 - i) (N - 1 - j) = - get2 (self_Z s) i j.
Proof.
  intros Hn Hi Hj s N. unfold s, N.
  rewrite !X_at, !Y_at, !Z_at, !V_at, !U_at by lia.
  rewrite v_reflect, u_reflect by lia.
  rewrite cos_full_turn_minus, sin_full_turn_minus,
    cos_half_of_reflected, sin_half_of_reflected.
  repeat split; ring.
Qed.

(** X4.  The point grid is carried to itself by the half turn about the
    x-axis: reversing both the row and the column index keeps [X] and
    negates [Y] and [Z]. *)
Theorem half_turn_symmetry (R0 w : R) (n : Z) :
  (2 <= n)%Z ->
  exists s, __init__ R0 w n = inr s /\
    let N := Z.to_nat n in
    forall i j, (i < N)%nat -> (j < N)%nat ->
      get2 (self_X s) (N - 1 - i) (N - 1 - j) = get2 (self_X s) i j /\
      get2 (self_Y s) (N - 1 - i) (N - 1 - j) = - get2 (self_Y s) i j /\
      get2 (self_Z s) (N - 1 - i) (N - 1 - j) = - get2 (self_Z s) i j.
Proof.
  intros Hn. exists (strip_of R0 w n). split; [apply init_accepts; lia|].
  intros N i j Hi Hj. apply half_turn_point; assumption.
Qed.

Lemma half_turn_symmetry_witness :
  (2 <= 4)%Z /\
  exists s, __init__ 1 0.2 4 = inr s /\
    get2 (self_Y s) 3 2 = - get2 (self_Y s) 0 1.
Proof.
  split; [lia|].
  destruct (half_turn_symmetry 1 0.2 4 ltac:(lia)) as (s & Hs & H).
  exists s. split; [exact Hs|].
  apply (H 0%nat 1%nat); simpl; lia.
Defined.

Lemma sum_snoc (l : list R) (a : R) : np.sum (l ++ [a]) = np.sum l + a.
Proof. induction l as [|b l IH]; simpl; [ring | rewrite IH; ring]. Qed.

Lemma sum_reversed (f : nat -> R) (m : nat) :
  np.sum (map (fun j => f (m - 1 - j)%nat) (seq 0 m)) = np.sum (map f (seq 0 m)).
Proof.
  induction m as [|m IH]; [reflexivity|].
  assert (Hr : np.sum (map f (seq 0 (S m))) = np.sum (map f (seq 0 m)) + f m)
    by (rewrite seq_S, map_app; cbn [map]; rewrite sum_snoc; reflexivity).
  assert (Hl : np.sum (map (fun j => f (S m - 1 - j)%nat) (seq 0 (S m)))
               = f m + np.sum (map (fun j => f (m - 1 - j)%nat) (seq 0 m))).
  { cbn [seq map np.sum fold_right]. rewrite <- seq_shift, map_map.
    replace (S m - 1 - 0)%nat with m by lia. f_equal.
    unfold np.sum. f_equal.
    apply map_ext. intros j. f_equal. lia. }
  rewrite Hl, Hr, IH. ring.
Qed.

Lemma segment_reversed (R0 w : R) (n : Z) (i j : nat) :
  (2 <= n)%Z -> (i < Z.to_nat n)%nat -> (j < Z.to_nat n - 1)%nat ->
  let s := strip_of R0 w n in
  let N := Z.to_nat n in
  Spec.segment s (N - 1 - i) (N - 1 - 1 - j) = Spec.segment s i j.
Proof.
  intros Hn Hi Hj s N. unfold Spec.segment. f_equal.
  destruct (half_turn_point R0 w n i j Hn Hi ltac:(lia)) as (EX & EY & EZ).
  destruct (half_turn_point R0 w n i (j + 1) Hn Hi ltac:(lia)) as (EX' & EY' & EZ').
  fold s N in EX, EY, EZ, EX', EY', EZ'.
  replace (N - 1 - 1 - j + 1)%nat with (N - 1 - j)%nat by (unfold N; lia).
  replace (N - 1 - 1 - j)%nat with (N - 1 - (j + 1))%nat by (unfold N; lia).
  rewrite EX, EY, EZ, EX', EY', EZ'. ring.
Qed.

Lemma polyline_reversed (R0 w : R) (n : Z) (i : nat) :
  (2 <= n)%Z -> (i < Z.to_nat n)%nat ->
  Spec.polyline (strip_of R0 w n) (Z.to_nat n - 1 - i)
  = Spec.polyline (strip_of R0 w n) i.
Proof.
  intros Hn Hi. unfold Spec.polyline.
  change (Z.to_nat (self_n (strip_of R0 w n))) with (Z.to_nat n).
  rewrite <- (sum_reversed (Spec.segment (strip_of R0 w n) (Z.to_nat n - 1 - i))).
  f_equal. apply map_ext_in. intros j Hj. apply in_seq in Hj.
  apply (segment_reversed R0 w n i j); lia.
Qed.

(** X5.  The two boundary rows have the same polyline length, so for
    [n >= 2] [edge_length()] returns twice the length of the first row. *)
Theorem edge_length_twice_one_row (R0 w : R) (n : Z) :
  (2 <= n)%Z ->
  exists s, __init__ R0 w n = inr s /\
    Spec.polyline s (Z.to_nat n - 1) = Spec.polyline s 0 /\
    edge_length s = inr (2 * Spec.polyline s 0, s).
Proof.
  intros Hn. exists (strip_of R0 w n). split; [apply init_accepts; lia|].
  pose proof (polyline_reversed R0 w n 0 Hn ltac:(lia)) as E.
  rewrite Nat.sub_0_r in E. split; [exact E|].
  rewrite (edge_length_runs _ _ (strip_well_formed R0 w n Hn)).
  unfold Spec.edge_length.
  change (Z.to_nat (self_n (strip_of R0 w n))) with (Z.to_nat n).
  rewrite E. do 2 f_equal. ring.
Qed.

Lemma edge_length_twice_one_row_witness :
  (2 <= 4)%Z /\
  exists s, __init__ 1 0.2 4 = inr s /\
    edge_length s = inr (2 * Spec.polyline s 0, s).
Proof.
  split; [lia|].
  destruct (edge_length_twice_one_row 1 0.2 4 ltac:(lia)) as (s & Hs & _ & H).
  exists s. split; assumption.
Defined.

(** ** Where the points lie *)

Lemma v_middle (R0 w : R) (n : Z) :
  (2 <= n)%Z -> Nat.odd (Z.to_nat n) = true ->
  nth ((Z.to_nat n - 1) / 2) (self_v (strip_of R0 w n)) 0 = 0.
Proof.
  intros Hn Hodd.
  destruct (proj1 (Nat.odd_spec (Z.to_nat n)) Hodd) as [m Hm].
  assert (Hdiv : ((Z.to_nat n - 1) / 2 = m)%nat).
  { replace (Z.to_nat n - 1)%nat with (m * 2)%nat by lia. apply Nat.div_mul. lia. }
  rewrite Hdiv.
  pose proof (v_reflect R0 w n m Hn ltac:(lia)) as E.
  replace (Z.to_nat n - 1 - m)%nat with m in E by lia. lra.
Qed.

(** X6.  Every grid point lies at distance [|v[i]|] from the point of the
    centre circle of radius [R] at angle [u[j]]; for odd [n] the middle row
    is that circle itself. *)
Theorem points_around_centre_circle (R0 w : R) (n : Z) :
  (2 <= n)%Z ->
  exists s, __init__ R0 w n = inr s /\
    let N := Z.to_nat n in
    (forall i j, (i < N)%nat -> (j < N)%nat ->
       let u := nth j (self_u s) 0 in
       (get2 (self_X s) i j - R0 * cos u) ^ 2
       + (get2 (self_Y s) i j - R0 * sin u) ^ 2
       + get2 (self_Z s) i j ^ 2
       = nth i (self_v s) 0 ^ 2) /\
    (Nat.odd N = true ->
     forall j, (j < N)%nat ->
       let u := nth j (self_u s) 0 in
       get2 (self_X s) ((N - 1) / 2) j = R0 * cos u /\
       get2 (self_Y s) ((N - 1) / 2) j = R0 * sin u /\
       get2 (self_Z s) ((N - 1) / 2) j = 0).
Proof.
  intros Hn. exists (strip_of R0 w n). split; [apply init_accepts; lia|].
  intros N. split.
  - intros i j Hi Hj u. unfold u, N in *.
    rewrite X_at, Y_at, Z_at, V_at, U_at by lia.
    set (a := nth j (self_u (strip_of R0 w n)) 0).
    set (v := nth i (self_v (strip_of R0 w n)) 0).
    pose proof (sin2_cos2 a) as H1. pose proof (sin2_cos2 (a / 2)) as H2.
    unfold Rsqr in H1, H2.
    replace ((R0 + v * cos (a / 2)) * cos a - R0 * cos a) with (v * cos (a / 2) * cos a)
      by ring.
    replace ((R0 + v * cos (a / 2)) * sin a - R0 * sin a) with (v * cos (a / 2) * sin a)
      by ring.
    replace ((v * cos (a / 2) * cos a) ^ 2 + (v * cos (a / 2) * sin a) ^ 2
             + (v * sin (a / 2)) ^ 2)
      with (v ^ 2 * (cos (a / 2) * cos (a / 2) * (sin a * sin a + cos a * cos a)
                     + sin (a / 2) * sin (a / 2)))
      by ring.
    rewrite H1, Rmult_1_r, (Rplus_comm (cos (a / 2) * cos (a / 2))), H2. ring.
  - intros Hodd j Hj u. unfold u, N in *.
    assert (Hmid : ((Z.to_nat n - 1) / 2 < Z.to_nat n)%nat).
    { apply Nat.le_lt_trans with (Z.to_nat n - 1)%nat; [|lia].
      apply Nat.Div0.div_le_upper_bound. lia. }
    rewrite X_at, Y_at, Z_at, V_at, U_at, v_middle by assumption.
    repeat split; ring.
Qed.

Lemma points_around_centre_circle_witness :
  (2 <= 3)%Z /\
  exists s, __init__ 1 0.2 3 = inr s /\
    get2 (self_X s) 1 2 = 1 * cos (nth 2 (self_u s) 0).
Proof.
  split; [lia|].
  destruct (points_around_centre_circle 1 0.2 3 ltac:(lia)) as (s & Hs & _ & H).
  exists s. split; [exact Hs|].
  apply (H eq_refl 2%nat). simpl; lia.
Defined.

Lemma fraction_of_range (N i : nat) :
  (2 <= N)%nat -> (i < N)%nat -> 0 <= INR i / INR (N - 1) <= 1.
Proof.
  intros HN Hi.
  assert (H0 : 0 < INR (N - 1)) by (apply lt_0_INR; lia).
  assert (H1 : 0 <= INR i) by apply pos_INR.
  assert (H2 : INR i <= INR (N - 1)) by (apply le_INR; lia).
  split.
  - apply Rmult_le_pos; [exact H1 | apply Rlt_le, Rinv_0_lt_compat; exact H0].
  - apply Rmult_le_reg_r with (INR (N - 1)); [exact H0|].
    unfold Rdiv. rewrite Rmult_assoc, Rinv_l by lra. lra.
Qed.

Lemma v_bounds (R0 w : R) (n : Z) (i : nat) :
  (2 <= n)%Z -> 0 <= w -> (i < Z.to_nat n)%nat ->
  - w / 2 <= nth i (self_v (strip_of R0 w n)) 0 <= w / 2.
Proof.
  intros Hn Hw Hi. rewrite v_at by lia.
  pose proof (fraction_of_range (Z.to_nat n) i ltac:(lia) Hi) as [H0 H1].
  replace (INR i * (w / INR (Z.to_nat n - 1)))
    with (INR i / INR (Z.to_nat n - 1) * w) by (unfold Rdiv; ring).
  split; nra.
Qed.

Lemma u_bounds (R0 w : R) (n : Z) (j : nat) :
  (2 <= n)%Z -> (j < Z.to_nat n)%nat ->
  0 <= nth j (self_u (strip_of R0 w n)) 0 <= 2 * PI.
Proof.
  intros Hn Hj. rewrite u_at by lia.
  pose proof (fraction_of_range (Z.to_nat n) j ltac:(lia) Hj) as [H0 H1].
  pose proof PI_RGT_0.
  replace (INR j * (2 * PI / INR (Z.to_nat n - 1)))
    with (INR j / INR (Z.to_nat n - 1) * (2 * PI)) by (unfold Rdiv; ring).
  split; nra.
Qed.

(** X7.  For [n >= 2] and [w >= 0] the grid vectors are bounded and
    sorted: every [u[j]] lies in [[0, 2*PI]] and [u] increases strictly;
    every [v[i]] lies in [[-w/2, w/2]] and, when [w > 0], [v] increases
    strictly. *)
Theorem grid_sorted_and_bounded (R0 w : R) (n : Z) :
  (2 <= n)%Z -> 0 <= w ->
  exists s, __init__ R0 w n = inr s /\
    let N := Z.to_nat n in
    (forall j, (j < N)%nat -> 0 <= nth j (self_u s) 0 <= 2 * PI) /\
    (forall j, (S j < N)%nat -> nth j (self_u s) 0 < nth (S j) (self_u s) 0) /\
    (forall i, (i < N)%nat -> - w / 2 <= nth i (self_v s) 0 <= w / 2) /\
    (0 < w ->
     forall i, (S i < N)%nat -> nth i (self_v s) 0 < nth (S i) (self_v s) 0).
Proof.
  intros Hn Hw. exists (strip_of R0 w n). split; [apply init_accepts; lia|].
  intros N.
  assert (HN : 0 < INR (N - 1)) by (apply lt_0_INR; unfold N; lia).
  pose proof PI_RGT_0 as Hpi.
  split; [|split; [|split]].
  - intros j Hj. apply u_bounds; assumption.
  - intros j Hj. unfold N in *. rewrite !u_at by lia. rewrite S_INR.
    assert (0 < 2 * PI / INR (Z.to_nat n - 1)) by (apply Rdiv_lt_0_compat; lra).
    lra.
  - intros i Hi. apply v_bounds; assumption.
  - intros Hw' i Hi. unfold N in *. rewrite !v_at by lia. rewrite S_INR.
    assert (0 < w / INR (Z.to_nat n - 1)) by (apply Rdiv_lt_0_compat; lra).
    lra.
Qed.

Lemma grid_sorted_and_bounded_witness :
  (2 <= 3)%Z /\ 0 <= 0.2 /\
  exists s, __init__ 1 0.2 3 = inr s /\
    nth 0 (self_v s) 0 < nth 1 (self_v s) 0 /\ nth 1 (self_u s) 0 <= 2 * PI.
Proof.
  split; [lia|]. split; [lra|].
  destruct (grid_sorted_and_bounded 1 0.2 3 ltac:(lia) ltac:(lra))
    as (s & Hs & Hu & _ & _ & Hv).
  exists s. split; [exact Hs|]. split.
  - apply Hv; [lra | simpl; lia].
  - apply (Hu 1%nat). simpl; lia.
Defined.

(** X8.  For [n >= 2] and [w >= 0] every grid point lies in the ring
    around the z-axis swept by the strip: its height [Z] is within
    [[-w/2, w/2]], and its distance from the z-axis is [|rho|] with
    [rho = R + v[i]*cos(u[j]/2)] between [R - w/2] and [R + w/2]. *)
Theorem points_in_bounding_ring (R0 w : R) (n : Z) :
  (2 <= n)%Z -> 0 <= w ->
  exists s, __init__ R0 w n = inr s /\
    let N := Z.to_nat n in
    forall i j, (i < N)%nat -> (j < N)%nat ->
      let rho := R0 + nth i (self_v s) 0 * cos (nth j (self_u s) 0 / 2) in
      - w / 2 <= get2 (self_Z s) i j <= w / 2 /\
      get2 (self_X s) i j ^ 2 + get2 (self_Y s) i j ^ 2 = rho ^ 2 /\
      R0 - w / 2 <= rho <= R0 + w / 2.
Proof.
  intros Hn Hw. exists (strip_of R0 w n). split; [apply init_accepts; lia|].
  intros N i j Hi Hj rho. unfold rho, N in *.
  rewrite X_at, Y_at, Z_at, V_at, U_at by lia.
  pose proof (v_bounds R0 w n i Hn Hw Hi) as [Hv0 Hv1].
  set (a := nth j (self_u (strip_of R0 w n)) 0).
  set (v := nth i (self_v (strip_of R0 w n)) 0) in *.
  pose proof (SIN_bound (a / 2)) as [Hs0 Hs1].
  pose proof (COS_bound (a / 2)) as [Hc0 Hc1].
  pose proof (sin2_cos2 a) as H1. unfold Rsqr in H1.
  split; [|split].
  - split; nra.
  - replace (((R0 + v * cos (a / 2)) * cos a) ^ 2 + ((R0 + v * cos (a / 2)) * sin a) ^ 2)
      with ((R0 + v * cos (a / 2)) ^ 2 * (sin a * sin a + cos a * cos a)) by ring.
    rewrite H1. ring.
  - split; nra.
Qed.

Lemma points_in_bounding_ring_witness :
  (2 <= 3)%Z /\ 0 <= 0.2 /\
  exists s, __init__ 1 0.2 3 = inr s /\
    - 0.2 / 2 <= get2 (self_Z s) 0 1 <= 0.2 / 2.
Proof.
  split; [lia|]. split; [lra|].
  destruct (points_in_bounding_ring 1 0.2 3 ltac:(lia) ltac:(lra)) as (s & Hs & H).
  exists s. split; [exact Hs|].
  destruct (H 0%nat 1%nat ltac:(simpl; lia) ltac:(simpl; lia)) as [[A B] _].
  split; lra.
Defined.

(** ** The tangent along [v] *)

(** On samples that are affine in the index the difference estimate is the
    slope, at the ends as in the interior. *)
Lemma difference_affine (f : nat -> R) (a b : R) (N i : nat) :
  (2 <= N)%nat -> (i < N)%nat ->
  (forall k, (k < N)%nat -> f k = a + b * INR k) ->
  Spec.difference f N i = b.
Proof.
  intros HN Hi Hf. unfold Spec.difference.
  destruct (Nat.eqb_spec i 0) as [E0|E0]; [|destruct (Nat.eqb_spec i (N - 1)) as [E1|E1]].
  - rewrite !Hf by lia. simpl. ring.
  - rewrite !Hf by lia. replace (N - 1)%nat with (S (N - 2)) by lia.
    rewrite S_INR. ring.
  - rewrite !Hf by lia. destruct i as [|i]; [lia|].
    replace (S i + 1)%nat with (S (S i)) by lia.
    replace (S i - 1)%nat with i by lia.
    rewrite !S_INR. field.
Qed.

Lemma dv_value (R0 w : R) (n : Z) :
  (2 <= n)%Z ->
  nth 1 (self_v (strip_of R0 w n)) 0 - nth 0 (self_v (strip_of R0 w n)) 0
  = w / INR (Z.to_nat n - 1).
Proof. intros Hn. rewrite !v_at by lia. simpl. field. apply not_0_INR. lia. Qed.

(** X9.  Along [v] the surface is straight, and the finite differences of
    [surface_area()] see it exactly: for [n >= 2] and [w <> 0],
    [np.gradient(., axis=0) / dv] of [X], [Y], [Z] is, at every grid
    index -- the boundary rows included -- the exact partial derivative
    [(cos(u/2)*cos u, cos(u/2)*sin u, sin(u/2))]. *)
Theorem v_tangent_is_exact (R0 w : R) (n : Z) :
  (2 <= n)%Z -> w <> 0 ->
  exists s gX gY gZ, __init__ R0 w n = inr s /\
    np.gradient (self_X s) 0 = inr gX /\
    np.gradient (self_Y s) 0 = inr gY /\
    np.gradient (self_Z s) 0 = inr gZ /\
    let N := Z.to_nat n in
    let dv := nth 1 (self_v s) 0 - nth 0 (self_v s) 0 in
    forall i j, (i < N)%nat -> (j < N)%nat ->
      let u := nth j (self_u s) 0 in
      get2 gX i j / dv = cos (u / 2) * cos u /\
      get2 gY i j / dv = cos (u / 2) * sin u /\
      get2 gZ i j / dv = sin (u / 2).
Proof.
  intros Hn Hw.
  set (s := strip_of R0 w n). set (N := Z.to_nat n).
  assert (HN : (2 <= N)%nat) by (unfold N; lia).
  assert (Hd : INR (N - 1) <> 0) by (apply not_0_INR; lia).
  exists s.
  exists (np.gradient_along (zipWith Rminus) (map (fun x => x / 2)) [] (self_X s)).
  exists (np.gradient_along (zipWith Rminus) (map (fun x => x / 2)) [] (self_Y s)).
  exists (np.gradient_along (zipWith Rminus) (map (fun x => x / 2)) [] (self_Z s)).
  split; [apply init_accepts; lia|].
  split; [apply (gradient_v_runs _ N N HN), shape_X|].
  split; [apply (gradient_v_runs _ N N HN), shape_Y|].
  split; [apply (gradient_v_runs _ N N HN), shape_Z|].
  intros N' dv i j Hi Hj u. unfold dv, u, N' in *. clear dv u N'.
  unfold s. rewrite dv_value by exact Hn. fold s N.
  set (a := nth j (self_u s) 0).
  set (d := w / INR (N - 1)).
  assert (Hd' : d <> 0).
  { unfold d. intros E. apply Hw.
    replace w with (w / INR (N - 1) * INR (N - 1)) by (field; exact Hd).
    rewrite E. ring. }
  rewrite (get2_gradient_v _ N N) by (try apply shape_X; assumption).
  rewrite (get2_gradient_v _ N N) by (try apply shape_Y; assumption).
  rewrite (get2_gradient_v _ N N) by (try apply shape_Z; assumption).
  rewrite (difference_affine _ ((R0 + - w / 2 * cos (a / 2)) * cos a)
             (d * (cos (a / 2) * cos a)) N i HN Hi).
  2:{ intros k Hk. unfold s. rewrite X_at, V_at, U_at, v_at by (fold N; lia).
      fold s N a d. ring. }
  rewrite (difference_affine _ ((R0 + - w / 2 * cos (a / 2)) * sin a)
             (d * (cos (a / 2) * sin a)) N i HN Hi).
  2:{ intros k Hk. unfold s. rewrite Y_at, V_at, U_at, v_at by (fold N; lia).
      fold s N a d. ring. }
  rewrite (difference_affine _ (- w / 2 * sin (a / 2)) (d * sin (a / 2)) N i HN Hi).
  2:{ intros k Hk. unfold s. rewrite Z_at, V_at, U_at, v_at by (fold N; lia).
      fold s N a d. ring. }
  repeat split; field; exact Hd'.
Qed.

Lemma v_tangent_is_exact_witness :
  (2 <= 3)%Z /\ 0.2 <> 0 /\
  exists s gZ, __init__ 1 0.2 3 = inr s /\
    np.gradient (self_Z s) 0 = inr gZ /\
    get2 gZ 2 1 / (nth 1 (self_v s) 0 - nth 0 (self_v s) 0)
    = sin (nth 1 (self_u s) 0 / 2).
Proof.
  split; [lia|]. split; [lra|].
  destruct (v_tangent_is_exact 1 0.2 3 ltac:(lia) ltac:(lra))
    as (s & gX & gY & gZ & Hs & _ & _ & HZ & H).
  exists s, gZ. split; [exact Hs|]. split; [exact HZ|].
  apply (H 2%nat 1%nat); simpl; lia.
Defined.

(** ** Homogeneity of the array operations *)

Lemma nth_map_scale (c : R) (l : list R) (i : nat) :
  nth i (map (Rmult c) l) 0 = c * nth i l 0.
Proof.
  destruct (Nat.lt_ge_cases i (length l)) as [Hi|Hi].
  - apply nth_map_in. exact Hi.
  - rewrite !nth_overflow by (rewrite ?length_map; exact Hi). ring.
Qed.

Lemma zipWith_minus_scale (c : R) (l l' : list R) :
  zipWith Rminus (map (Rmult c) l) (map (Rmult c) l')
  = map (Rmult c) (zipWith Rminus l l').
Proof.
  revert l'; induction l as [|a l IH]; intros [|b l']; simpl; try reflexivity.
  rewrite IH. f_equal. ring.
Qed.

Lemma diff_scale (c : R) (x : list R) :
  np.diff (map (Rmult c) x) = map (Rmult c) (np.diff x).
Proof. unfold np.diff. rewrite skipn_map. apply zipWith_minus_scale. Qed.

Lemma sum_scale (c : R) (l : list R) :
  np.sum (map (Rmult c) l) = c * np.sum l.
Proof. induction l as [|a l IH]; simpl; [ring | rewrite IH; ring]. Qed.

Lemma ratio_scale (k a b : R) : k <> 0 -> (k * a) / (k * b) = a / b.
Proof.
  intros Hk. unfold Rdiv. rewrite Rinv_mult.
  replace (k * a * (/ k * / b)) with (k * / k * (a * / b)) by ring.
  rewrite Rinv_r by exact Hk. ring.
Qed.

Lemma simps_term_scale_y (c : R) (y h : list R) (i : nat) :
  integrate.simps_term (map (Rmult c) y) h i = c * integrate.simps_term y h i.
Proof. unfold integrate.simps_term. rewrite !nth_map_scale. cbv zeta. ring. Qed.

Lemma simps_term_scale_x (k : R) (y h : list R) (i : nat) :
  k <> 0 ->
  integrate.simps_term y (map (Rmult k) h) i = k * integrate.simps_term y h i.
Proof.
  intros Hk. unfold integrate.simps_term. rewrite !nth_map_scale. cbv zeta.
  set (h0 := nth i h 0). set (h1 := nth (i + 1) h 0).
  rewrite (ratio_scale k h0 h1 Hk).
  replace ((k * h0 + k * h1) * (k * h0 + k * h1))
    with (k * k * ((h0 + h1) * (h0 + h1))) by ring.
  replace (k * h0 * (k * h1)) with (k * k * (h0 * h1)) by ring.
  rewrite (ratio_scale (k * k)) by (apply Rmult_integral_contrapositive_currified; exact Hk).
  unfold Rdiv. ring.
Qed.

Lemma basic_simps_scale_y (c : R) (y x : list R) (a b : Z) :
  integrate._basic_simps (map (Rmult c) y) a b x
  = c * integrate._basic_simps y a b x.
Proof.
  unfold integrate._basic_simps. rewrite <- sum_scale, map_map. f_equal.
  apply map_ext. intros i. apply simps_term_scale_y.
Qed.

Lemma basic_simps_scale_x (k : R) (y x : list R) (a b : Z) :
  k <> 0 ->
  integrate._basic_simps y a b (map (Rmult k) x)
  = k * integrate._basic_simps y a b x.
Proof.
  intros Hk. unfold integrate._basic_simps.
  rewrite diff_scale, <- sum_scale, map_map. f_equal.
  apply map_ext. intros i. apply simps_term_scale_x. exact Hk.
Qed.

(** The quadrature is linear in the samples and in the abscissae. *)
Lemma simps1_scale_y (c : R) (y x : list R) :
  integrate.simps1 (map (Rmult c) y) x = c * integrate.simps1 y x.
Proof.
  unfold integrate.simps1. rewrite length_map.
  rewrite !basic_simps_scale_y, !nth_map_scale.
  destruct (Nat.even (length y)); [field | reflexivity].
Qed.

Lemma simps1_scale_x (k : R) (y x : list R) :
  k <> 0 -> integrate.simps1 y (map (Rmult k) x) = k * integrate.simps1 y x.
Proof.
  intros Hk. unfold integrate.simps1.
  rewrite !basic_simps_scale_x by exact Hk. rewrite !nth_map_scale.
  destruct (Nat.even (length y)); [field | reflexivity].
Qed.

Lemma norm_scale (k a b c : R) :
  0 <= k ->
  sqrt ((k * a) ^ 2 + (k * b) ^ 2 + (k * c) ^ 2)
  = k * sqrt (a ^ 2 + b ^ 2 + c ^ 2).
Proof.
  intros Hk.
  replace ((k * a) ^ 2 + (k * b) ^ 2 + (k * c) ^ 2)
    with (k ^ 2 * (a ^ 2 + b ^ 2 + c ^ 2)) by ring.
  pose proof (pow2_ge_0 a). pose proof (pow2_ge_0 b). pose proof (pow2_ge_0 c).
  rewrite sqrt_mult by (try apply pow2_ge_0; lra).
  rewrite sqrt_pow2 by exact Hk. reflexivity.
Qed.

Lemma difference_ext (f g : nat -> R) (N i : nat) :
  (2 <= N)%nat -> (i < N)%nat ->
  (forall m, (m < N)%nat -> f m = g m) ->
  Spec.difference f N i = Spec.difference g N i.
Proof.
  intros HN Hi H. unfold Spec.difference.
  destruct (Nat.eqb_spec i 0); [|destruct (Nat.eqb_spec i (N - 1))];
    rewrite !H by lia; reflexivity.
Qed.

Lemma difference_scale (c : R) (f : nat -> R) (N i : nat) :
  Spec.difference (fun m => c * f m) N i = c * Spec.difference f N i.
Proof.
  unfold Spec.difference.
  destruct (i =? 0)%nat; [|destruct (i =? N - 1)%nat]; field.
Qed.

(** ** Scaling the configuration *)

Section Scaling.
Variables (R0 w k : R) (n : Z).
Hypothesis Hn : (2 <= n)%Z.
Hypothesis Hk : 0 < k.
Let N := Z.to_nat n.
Let s := strip_of R0 w n.
Let s' := strip_of (k * R0) (k * w) n.

Lemma scaled_u : self_u s' = self_u s.
Proof. reflexivity. Qed.

Lemma scaled_v_at (i : nat) :
  (i < N)%nat -> nth i (self_v s') 0 = k * nth i (self_v s) 0.
Proof.
  intros Hi. unfold s', s. rewrite !v_at by assumption.
  assert (INR (Z.to_nat n - 1) <> 0) by (apply not_0_INR; lia).
  field. assumption.
Qed.

Lemma scaled_v : self_v s' = map (Rmult k) (self_v s).
Proof.
  apply (nth_ext _ _ 0 0).
  - rewrite length_map. unfold s', s. rewrite !length_v. reflexivity.
  - intros i Hi. unfold s' in Hi. rewrite length_v in Hi.
    rewrite nth_map_scale. apply scaled_v_at. exact Hi.
Qed.

Lemma scaled_points (i j : nat) :
  (i < N)%nat -> (j < N)%nat ->
  get2 (self_X s') i j = k * get2 (self_X s) i j /\
  get2 (self_Y s') i j = k * get2 (self_Y s) i j /\
  get2 (self_Z s') i j = k * get2 (self_Z s) i j.
Proof.
  intros Hi Hj. unfold s', s.
  rewrite !X_at, !Y_at, !Z_at, !V_at, !U_at by assumption.
  fold s s'. rewrite scaled_u, scaled_v_at by assumption.
  repeat split; ring.
Qed.

Lemma scaled_segment (i j : nat) :
  (i < N)%nat -> (j + 1 < N)%nat ->
  Spec.segment s' i j = k * Spec.segment s i j.
Proof.
  intros Hi Hj. unfold Spec.segment.
  destruct (scaled_points i j Hi ltac:(lia)) as (EX & EY & EZ).
  destruct (scaled_points i (j + 1) Hi Hj) as (EX' & EY' & EZ').
  rewrite EX, EY, EZ, EX', EY', EZ'.
  rewrite <- norm_scale by lra. f_equal. ring.
Qed.

Lemma scaled_polyline (i : nat) :
  (i < N)%nat -> Spec.polyline s' i = k * Spec.polyline s i.
Proof.
  intros Hi. unfold Spec.polyline.
  change (Z.to_nat (self_n s')) with N. change (Z.to_nat (self_n s)) with N.
  rewrite <- sum_scale, map_map. f_equal.
  apply map_ext_in. intros j Hj. apply in_seq in Hj.
  apply scaled_segment; lia.
Qed.

Lemma scaled_edge_length : Spec.edge_length s' = k * Spec.edge_length s.
Proof.
  unfold Spec.edge_length.
  change (Z.to_nat (self_n s')) with N. change (Z.to_nat (self_n s)) with N.
  rewrite !scaled_polyline by (unfold N; lia). ring.
Qed.

Lemma scaled_du : Spec.du s' = Spec.du s.
Proof. reflexivity. Qed.

Lemma scaled_dv : Spec.dv s' = k * Spec.dv s.
Proof.
  unfold Spec.dv. rewrite !scaled_v_at by (unfold N; lia). ring.
Qed.

Lemma scaled_along_u (A A' : list (list R)) (i j : nat) :
  (i < N)%nat -> (j < N)%nat ->
  (forall m, (m < N)%nat -> get2 A' i m = k * get2 A i m) ->
  Spec.along_u s' A' i j = k * Spec.along_u s A i j.
Proof.
  intros Hi Hj H. unfold Spec.along_u.
  change (Z.to_nat (self_n s')) with N. change (Z.to_nat (self_n s)) with N.
  rewrite scaled_du.
  rewrite (difference_ext _ (fun m => k * get2 A i m)) by (try exact H; unfold N; lia).
  rewrite difference_scale. unfold Rdiv. rewrite Rmult_assoc. reflexivity.
Qed.

Lemma scaled_along_v (A A' : list (list R)) (i j : nat) :
  (i < N)%nat -> (j < N)%nat ->
  (forall m, (m < N)%nat -> get2 A' m j = k * get2 A m j) ->
  Spec.along_v s' A' i j = Spec.along_v s A i j.
Proof.
  intros Hi Hj H. unfold Spec.along_v.
  change (Z.to_nat (self_n s')) with N. change (Z.to_nat (self_n s)) with N.
  rewrite scaled_dv.
  rewrite (difference_ext _ (fun m => k * get2 A m j)) by (try exact H; unfold N; lia).
  rewrite difference_scale. apply ratio_scale. lra.
Qed.

Lemma scaled_dA (i j : nat) :
  (i < N)%nat -> (j < N)%nat -> Spec.dA s' i j = k * Spec.dA s i j.
Proof.
  intros Hi Hj. unfold Spec.dA, Spec.Nx, Spec.Ny, Spec.Nz,
    Spec.Xu, Spec.Yu, Spec.Zu, Spec.Xv, Spec.Yv, Spec.Zv.
  rewrite !(scaled_along_u (self_X s) (self_X s')),
    !(scaled_along_u (self_Y s) (self_Y s')),
    !(scaled_along_u (self_Z s) (self_Z s')),
    !(scaled_along_v (self_X s) (self_X s')),
    !(scaled_along_v (self_Y s) (self_Y s')),
    !(scaled_along_v (self_Z s) (self_Z s'))
    by (try assumption; intros m Hm; apply scaled_points; assumption).
  rewrite <- norm_scale by lra. f_equal. ring.
Qed.

Lemma scaled_area_v (j : nat) :
  (j < N)%nat -> Spec.area_v s' j = k * k * Spec.area_v s j.
Proof.
  intros Hj. unfold Spec.area_v.
  change (Z.to_nat (self_n s')) with N. change (Z.to_nat (self_n s)) with N.
  rewrite scaled_v.
  replace (map (fun i => Spec.dA s' i j) (seq 0 N))
    with (map (Rmult k) (map (fun i => Spec.dA s i j) (seq 0 N))).
  - rewrite simps1_scale_y, simps1_scale_x by lra. ring.
  - rewrite map_map. apply map_ext_in. intros i Hi. apply in_seq in Hi.
    symmetry. apply scaled_dA; lia.
Qed.

Lemma scaled_total_area : Spec.total_area s' = k * k * Spec.total_area s.
Proof.
  unfold Spec.total_area.
  change (Z.to_nat (self_n s')) with N. change (Z.to_nat (self_n s)) with N.
  rewrite scaled_u.
  replace (map (Spec.area_v s') (seq 0 N))
    with (map (Rmult (k * k)) (map (Spec.area_v s) (seq 0 N))).
  - apply simps1_scale_y.
  - rewrite map_map. apply map_ext_in. intros j Hj. apply in_seq in Hj.
    symmetry. apply scaled_area_v. lia.
Qed.

End Scaling.

(** X10.  Scaling law for the edge: multiplying both [R] and [w] by
    [k > 0], with the same [n >= 2], multiplies every point by [k] and
    what [edge_length()] returns by exactly [k]. *)
Theorem edge_length_scales (R0 w k : R) (n : Z) :
  (2 <= n)%Z -> 0 < k ->
  exists s s' l, __init__ R0 w n = inr s /\
    __init__ (k * R0) (k * w) n = inr s' /\
    edge_length s = inr (l, s) /\
    edge_length s' = inr (k * l, s').
Proof.
  intros Hn Hk.
  exists (strip_of R0 w n), (strip_of (k * R0) (k * w) n),
    (Spec.edge_length (strip_of R0 w n)).
  split; [apply init_accepts; lia|]. split; [apply init_accepts; lia|].
  split.
  - apply (edge_length_runs _ _ (strip_well_formed R0 w n Hn)).
  - rewrite (edge_length_runs _ _ (strip_well_formed (k * R0) (k * w) n Hn)).
    rewrite scaled_edge_length by assumption. reflexivity.
Qed.

Lemma edge_length_scales_witness :
  (2 <= 3)%Z /\ 0 < 2 /\
  exists s s' l, __init__ 1 0.2 3 = inr s /\
    __init__ (2 * 1) (2 * 0.2) 3 = inr s' /\
    edge_length s = inr (l, s) /\
    edge_length s' = inr (2 * l, s').
Proof.
  split; [lia|]. split; [lra|].
  apply (edge_length_scales 1 0.2 2 3); [lia | lra].
Defined.

(** X11.  Scaling law for the area: for [w <> 0], multiplying both [R]
    and [w] by [k > 0], with the same [n >= 2], multiplies what
    [surface_area()] returns by exactly [k * k]. *)
Theorem surface_area_scales (R0 w k : R) (n : Z) :
  (2 <= n)%Z -> 0 < k -> w <> 0 ->
  exists s s' a, __init__ R0 w n = inr s /\
    __init__ (k * R0) (k * w) n = inr s' /\
    surface_area s = inr (a, s) /\
    surface_area s' = inr (k * k * a, s').
Proof.
  intros Hn Hk _.
  exists (strip_of R0 w n), (strip_of (k * R0) (k * w) n),
    (Spec.total_area (strip_of R0 w n)).
  split; [apply init_accepts; lia|]. split; [apply init_accepts; lia|].
  split.
  - apply (surface_area_runs _ _ (strip_well_formed R0 w n Hn)).
  - rewrite (surface_area_runs _ _ (strip_well_formed (k * R0) (k * w) n Hn)).
    rewrite scaled_total_area by assumption. reflexivity.
Qed.

Lemma surface_area_scales_witness :
  (2 <= 3)%Z /\ 0 < 2 /\ 0.2 <> 0 /\
  exists s s' a, __init__ 1 0.2 3 = inr s /\
    __init__ (2 * 1) (2 * 0.2) 3 = inr s' /\
    surface_area s = inr (a, s) /\
    surface_area s' = inr (2 * 2 * a, s').
Proof.
  split; [lia|]. split; [lra|]. split; [lra|].
  apply (surface_area_scales 1 0.2 2 3); [lia | lra | lra].
Defined.
